(** * ceph_exporter: the scrape-cycle engine, embedded and verified

    The development follows the three source files of the repository:

    - [exporter.go]: the fail-fast listener ([emfileAwareTcpListener.Accept]),
      the exporter ([getCollectors], [cephVersionCmd], [setCephVersion],
      [Describe], [Collect]);
    - the [ceph] package: the [radosgw-admin] wrappers ([listBucketStats],
      [showBucketUsage]) and the bucket-usage collector
      ([NewBucketUsageCollector], [collect], [Collect]).

    Go values are modelled as the code has them: [int] and [int64] as [Z],
    [string] as [string] (a sequence of 8-bit characters), [[]byte] as
    [list byte], a nilable [error] as [option error], a function returning
    [(T, error)] as a pair.  Goroutines and concurrent invocations are
    interleaved by an explicit schedule, one source statement per step. *)

From Stdlib Require Import ZArith String Ascii List.
From Stdlib.Strings Require Import Byte.
From stdpp Require Import base option list strings gmap.

#[local] Set Warnings "-register-all".

Local Open Scope Z_scope.

(** ** Go's [error] values that the code inspects or creates *)

Inductive error : Type :=
| Errno (n : Z)                          (* syscall.Errno *)
| SyscallError (call : string) (e : error)   (* *os.SyscallError{Syscall, Err} *)
| OpError (op : string) (e : error)      (* *net.OpError{Op, ..., Err} *)
| ExitError (code : Z)                   (* *exec.ExitError *)
| SyntaxError (msg : string)             (* *json.SyntaxError *)
| UnmarshalTypeError (field : string)    (* *json.UnmarshalTypeError *)
| UnsupportedTypeError (ty : string)     (* *json.UnsupportedTypeError *)
| errorString (msg : string).            (* errors.New *)

#[global] Instance error_eq_dec : EqDecision error.
Proof. solve_decision. Defined.

(** [[]byte] *)
Abbreviation bytes := (list byte).

#[global] Instance byte_eq_decision : EqDecision byte := byte_eq_dec.

(** ** logrus entries *)

Inductive Level := PanicLevel | FatalLevel | ErrorLevel | WarnLevel | InfoLevel | DebugLevel.

(** The value of a [WithField(key, value)] call. *)
Inductive Field := FieldString (s : string) | FieldInt (n : Z).

Record Entry := mkEntry {
  level : Level;
  message : string;
  withError : option error;               (* WithError(err) *)
  withFields : list (string * Field)      (* WithField(key, value) *)
}.

(** How a call ends: it returns, it panics ([logger.Panic] logs the entry
    and panics with it), the process exits ([logger.Fatal] logs the entry and
    calls [os.Exit(1)]), or it waits on a lock that is held. *)
Inductive Run (A : Type) : Type :=
| Return (a : A)
| Panic (e : Entry)
| Exit (code : Z) (e : Entry)
| Blocked.
Arguments Return {A} a.
Arguments Panic {A} e.
Arguments Exit {A} code e.
Arguments Blocked {A}.


(** * The fail-fast listener ([exporter.go], lines 52-76) *)

Module Listener.











End Listener.

(** * [encoding/json]: the encoder, as far as the exporter uses it *)

Module json.

(** The Go values that reach [json.Marshal] here: strings and
    [map[string]interface{}], and two kinds the encoder refuses. *)
Inductive Value : Type :=
| Str (s : string)
| Map (entries : list (string * Value))
| Chan
| Func.

Definition quote : ascii := "034"%char.
Definition backslash : ascii := "092"%char.

Definition hexDigit (n : nat) : ascii :=
  match String.get n "0123456789abcdef" with
  | Some c => c
  | None => "0"%char
  end.

(** One byte of a string literal: [quote] and [backslash] are escaped
    with a backslash, newline, carriage return and tab get their short
    form, the other control bytes and [<], [>], [&] are written as a
    [u00XX] escape, and every other byte is copied. *)
Definition encodeByte (c : ascii) : string :=
  let n := nat_of_ascii c in
  if (Ascii.eqb c quote || Ascii.eqb c backslash)%bool then String backslash (String c "")
  else if Nat.eqb n 10 then String backslash "n"
  else if Nat.eqb n 13 then String backslash "r"
  else if Nat.eqb n 9 then String backslash "t"
  else if (Nat.ltb n 32 || Nat.eqb n 60 || Nat.eqb n 62 || Nat.eqb n 38)%bool
  then String backslash ("u00" +:+ String (hexDigit (n / 16)) (String (hexDigit (n mod 16)) ""))
  else String c "".

Fixpoint encodeChars (s : string) : string :=
  match s with
  | EmptyString => ""
  | String c r => encodeByte c +:+ encodeChars r
  end.

Definition encodeString (s : string) : string :=
  String quote (encodeChars s +:+ String quote "").

Definition quoted (s : string) : string := String quote (s +:+ String quote "").

(** Map keys are written in sorted order. *)
Fixpoint insertByKey {A} (kv : string * A) (l : list (string * A)) : list (string * A) :=
  match l with
  | [] => [kv]
  | kv' :: r =>
      if String.leb (fst kv) (fst kv') then kv :: l else kv' :: insertByKey kv r
  end.

Definition sortByKey {A} (l : list (string * A)) : list (string * A) :=
  foldr insertByKey [] l.

Fixpoint joinMembers (l : list (string * string)) : string :=
  match l with
  | [] => ""
  | [(k, v)] => encodeString k +:+ ":" +:+ v
  | (k, v) :: r => encodeString k +:+ ":" +:+ v +:+ "," +:+ joinMembers r
  end.

(** All members of a map must encode; the first one that does not gives
    the error. *)
Fixpoint sequence (l : list (string * (string + error))) : list (string * string) + error :=
  match l with
  | [] => inl []
  | (k, inl v) :: r =>
      match sequence r with
      | inl r' => inl ((k, v) :: r')
      | inr e => inr e
      end
  | (_, inr e) :: _ => inr e
  end.

Fixpoint encode (v : Value) : string + error :=
  match v with
  | Str s => inl (encodeString s)
  | Map entries =>
      match sequence (sortByKey (map (fun kv => (fst kv, encode (snd kv))) entries)) with
      | inl members => inl ("{" +:+ joinMembers members +:+ "}")
      | inr e => inr e
      end
  | Chan => inr (UnsupportedTypeError "chan")
  | Func => inr (UnsupportedTypeError "func")
  end.

(** [json.Marshal] *)
Definition Marshal (v : Value) : bytes * option error :=
  match encode v with
  | inl s => (list_byte_of_string s, None)
  | inr e => ([], Some e)
  end.

End json.

(** * [prometheus]: descriptors and constant metrics *)

Module prometheus.

(** [prometheus.NewDesc(fqName, help, variableLabels, constLabels)];
    [prometheus.Labels] is a [map[string]string]. *)
Record Desc := NewDesc {
  fqName : string;
  help : string;
  variableLabels : list string;
  constLabels : gmap string string
}.

Inductive ValueType := CounterValue | GaugeValue | UntypedValue.

(** A constant metric.  [value] holds the [int64] that the collectors
    convert with [float64(...)]. *)
Record Metric := mkMetric {
  desc : Desc;
  valueType : ValueType;
  value : Z;
  labelValues : list string
}.

Definition errInconsistentCardinality : error :=
  errorString "inconsistent label cardinality".

(** [NewConstMetric] refuses label values that do not match the
    descriptor's variable labels in number. *)
Definition NewConstMetric (d : Desc) (vt : ValueType) (v : Z) (lvs : list string)
  : option Metric * option error :=
  if Nat.eqb (length lvs) (length (variableLabels d))
  then (Some (mkMetric d vt v lvs), None)
  else (None, Some errInconsistentCardinality).

(** [MustNewConstMetric] panics where [NewConstMetric] returns an error:
    [inr e] stands for the panic with [e]. *)
Definition MustNewConstMetric (d : Desc) (vt : ValueType) (v : Z) (lvs : list string)
  : Metric + error :=
  match NewConstMetric d vt v lvs with
  | (Some m, None) => inl m
  | (_, Some e) => inr e
  | (None, None) => inr errInconsistentCardinality
  end.

End prometheus.

(** * The exporter ([exporter.go], lines 78-201) *)

Module Exporter.

(** [collectors.Conn], the interface of the cluster connection: the one
    method the exporter calls.  The connection's state (and the cluster's
    behind it) is threaded through the call. *)
Class Conn (C : Type) := MonCommand : C -> bytes -> C * (bytes * string * option error).

(** A sub-collector, named by the constructor call that makes it in
    [getCollectors]: [collectors.NewXCollector(c.conn, c.cluster, c.logger)]
    and [collectors.NewRGWCollector(c.cluster, c.config, background, c.logger)].
    The connection and the logger are the exporter's own. *)
Inductive Collector : Type :=
| NewClusterUsageCollector (cluster : string)
| NewPoolUsageCollector (cluster : string)
| NewPoolInfoCollector (cluster : string)
| NewClusterHealthCollector (cluster : string)
| NewMonitorCollector (cluster : string)
| NewOSDCollector (cluster : string)
| NewRGWCollector (cluster config : string) (background : bool).

#[global] Instance Collector_eq_dec : EqDecision Collector.
Proof. solve_decision. Defined.

(** What the exporter imports from outside [exporter.go]: the [version]
    package, [json.Unmarshal] into [struct{Version string}] (the decoded
    field and the error), and the sub-collectors' two methods.  A
    sub-collector's [Collect] reads the shared version, talks to the
    cluster and sends metrics. *)
Class Imports (C : Type) := {
  Version : Type;
  ParseCephVersion : string -> option Version * option error;
  Unmarshal : bytes -> string * option error;
  subDescribe : Collector -> list prometheus.Desc;
  subCollect : Collector -> option Version -> C -> C * list prometheus.Metric
}.

(** Modelled from the spec: the gateway modes of the [collectors] package,
    "disabled=0 / foreground=1 / background=2". *)
Definition RGWModeDisabled : Z := 0.
Definition RGWModeForeground : Z := 1.
Definition RGWModeBackground : Z := 2.

(** The fields of [CephExporter] that are values; [mu], [conn] and
    [logger] are shared objects and live in [World]. *)
Record CephExporter := mkCephExporter {
  cluster : string;
  config : string;
  rgwMode : Z
}.

Definition NewCephExporter (cluster config : string) (rgwMode : Z) : CephExporter :=
  mkCephExporter cluster config rgwMode.

Definition invalidMode (mode : Z) : Entry :=
  mkEntry WarnLevel "RGW collector disabled due to invalid mode" None
          [("rgwMode", FieldInt mode)].

(** [getCollectors]: the active list and what it logs. *)
Definition getCollectors (c : CephExporter) : list Collector * list Entry :=
  let standardCollectors :=
    [ NewClusterUsageCollector (cluster c);
      NewPoolUsageCollector (cluster c);
      NewPoolInfoCollector (cluster c);
      NewClusterHealthCollector (cluster c);
      NewMonitorCollector (cluster c);
      NewOSDCollector (cluster c) ] in
  if rgwMode c =? RGWModeForeground then
    (standardCollectors ++ [NewRGWCollector (cluster c) (config c) false], [])
  else if rgwMode c =? RGWModeBackground then
    (standardCollectors ++ [NewRGWCollector (cluster c) (config c) true], [])
  else if rgwMode c =? RGWModeDisabled then
    (standardCollectors, [])
  else
    (standardCollectors, [invalidMode (rgwMode c)]).

(** The payload of line 133-136. *)
Definition versionQuery : json.Value :=
  json.Map [("prefix", json.Str "version"); ("format", json.Str "json")].

(** The bytes [{"format":"json","prefix":"version"}], written out. *)
Definition versionCommand : bytes :=
  [x7b; x22; x66; x6f; x72; x6d; x61; x74; x22; x3a; x22; x6a; x73; x6f; x6e; x22; x2c;
   x22; x70; x72; x65; x66; x69; x78; x22; x3a; x22; x76; x65; x72; x73; x69; x6f; x6e;
   x22; x7d]%byte.

(** The six sub-collectors that every mode keeps. *)
Definition standard (c : CephExporter) : list Collector :=
  [ NewClusterUsageCollector (cluster c);
    NewPoolUsageCollector (cluster c);
    NewPoolInfoCollector (cluster c);
    NewClusterHealthCollector (cluster c);
    NewMonitorCollector (cluster c);
    NewOSDCollector (cluster c) ].

Section Model.
Context {C : Type} `{!Conn C} `{!Imports C}.

(** What a call of the exporter works on.  Shared with every other
    call: the connection, the package variables [CephVersion] and
    [versionLock], the mutex [mu] and the logger's output.  Its own: the
    channel it was given, as the descriptors ([descs]) or the metrics
    ([metrics]) sent on it so far.  [invoked] records the sub-collector
    methods called, in order. *)
Record World := mkWorld {
  conn : C;
  CephVersion : option Version;
  versionLock : bool;
  mu : bool;
  logged : list Entry;
  descs : list prometheus.Desc;
  metrics : list prometheus.Metric;
  invoked : list Collector
}.

Definition M (A : Type) : Type := World -> Run A * World.

Definition ret {A} (a : A) : M A := fun w => (Return a, w).

Definition bind {A B} (m : M A) (k : A -> M B) : M B :=
  fun w =>
    match m w with
    | (Return a, w') => k a w'
    | (Panic e, w') => (Panic e, w')
    | (Exit n e, w') => (Exit n e, w')
    | (Blocked, w') => (Blocked, w')
    end.

Definition modify (f : World -> World) : M unit := fun w => (Return tt, f w).

Notation "x <- m ;; k" := (bind m (fun x => k))
  (at level 90, m at next level, right associativity).
Notation "m >> k" := (bind m (fun _ => k))
  (at level 90, right associativity).

Definition set_conn (x : C) (w : World) : World :=
  mkWorld x (CephVersion w) (versionLock w) (mu w) (logged w) (descs w) (metrics w) (invoked w).
Definition set_CephVersion (x : option Version) (w : World) : World :=
  mkWorld (conn w) x (versionLock w) (mu w) (logged w) (descs w) (metrics w) (invoked w).
Definition set_versionLock (x : bool) (w : World) : World :=
  mkWorld (conn w) (CephVersion w) x (mu w) (logged w) (descs w) (metrics w) (invoked w).
Definition set_mu (x : bool) (w : World) : World :=
  mkWorld (conn w) (CephVersion w) (versionLock w) x (logged w) (descs w) (metrics w) (invoked w).
Definition set_logged (x : list Entry) (w : World) : World :=
  mkWorld (conn w) (CephVersion w) (versionLock w) (mu w) x (descs w) (metrics w) (invoked w).
Definition set_descs (x : list prometheus.Desc) (w : World) : World :=
  mkWorld (conn w) (CephVersion w) (versionLock w) (mu w) (logged w) x (metrics w) (invoked w).
Definition set_metrics (x : list prometheus.Metric) (w : World) : World :=
  mkWorld (conn w) (CephVersion w) (versionLock w) (mu w) (logged w) (descs w) x (invoked w).
Definition set_invoked (x : list Collector) (w : World) : World :=
  mkWorld (conn w) (CephVersion w) (versionLock w) (mu w) (logged w) (descs w) (metrics w) x.

(** The logger: an entry is appended to the output; [Panic] then
    panics with it. *)
Definition log (e : Entry) : M unit :=
  modify (fun w => set_logged (logged w ++ [e]) w).

Definition logAll (es : list Entry) : M unit :=
  modify (fun w => set_logged (logged w ++ es) w).

Definition logPanic {A} (e : Entry) : M A :=
  fun w => (Panic e, set_logged (logged w ++ [e]) w).

(** [sync.Mutex]: [Lock] waits while the mutex is held; [Unlock] of a
    mutex that is not held is a fatal error of the runtime. *)
Definition Lock (held : World -> bool) (set : bool -> World -> World) : M unit :=
  fun w => if held w then (Blocked, w) else (Return tt, set true w).

Definition Unlock (held : World -> bool) (set : bool -> World -> World) : M unit :=
  fun w =>
    if held w then (Return tt, set false w)
    else (Exit 2 (mkEntry FatalLevel "sync: unlock of unlocked mutex" None []), w).

(** [defer cleanup] before [body]: the cleanup runs when the body
    returns and when it panics. *)
Definition defer {A} (cleanup : M unit) (body : M A) : M A :=
  fun w =>
    match body w with
    | (Return a, w') => (cleanup >> ret a) w'
    | (Panic e, w') => (cleanup >> (fun w'' => (Panic e, w''))) w'
    | other => other
    end.

Fixpoint forEach {A} (l : list A) (f : A -> M unit) : M unit :=
  match l with
  | [] => ret tt
  | x :: r => f x >> forEach r f
  end.

(** [c.conn.MonCommand(cmd)] *)
Definition monCommand (cmd : bytes) : M (bytes * string * option error) :=
  fun w => let '(conn', reply) := MonCommand (conn w) cmd in (Return reply, set_conn conn' w).

(** [cephVersionCmd] (lines 132-142) *)
Definition cephVersionCmd (c : CephExporter) : M bytes :=
  match json.Marshal versionQuery with
  | (cmd, None) => ret cmd
  | (_, Some err) =>
      logPanic (mkEntry PanicLevel "failed to marshal ceph version command" (Some err) [])
  end.

(** Lines 145-162 of [setCephVersion]: ask, decode, parse.  It returns
    the error of the first stage that fails, else the parsed version. *)
Definition fetchCephVersion (c : CephExporter) : M (option Version + error) :=
  cmd <- cephVersionCmd c ;;
  reply <- monCommand cmd ;;
  let '(buf, _, err) := reply in
  match err with
  | Some e => ret (inr e)
  | None =>
      let '(cephVersion, err) := Unmarshal buf in
      match err with
      | Some e => ret (inr e)
      | None =>
          let '(parsedVersion, err) := ParseCephVersion cephVersion in
          match err with
          | Some e => ret (inr e)
          | None => ret (inl parsedVersion)
          end
      end
  end.

(** What the three stages of lines 145-162 give in a world: the reply
    to the command, the decoded version string, the parsed version. *)
Definition reply (w : World) : bytes * string * option error :=
  (MonCommand (conn w) versionCommand).2.
Definition decoded (w : World) : string * option error := Unmarshal (reply w).1.1.
Definition parsed (w : World) : option Version * option error :=
  ParseCephVersion (decoded w).1.

(** The error of the first stage that fails, if one does. *)
Definition failure (w : World) : option error :=
  match (reply w).2, (decoded w).2, (parsed w).2 with
  | Some e, _, _ => Some e
  | None, Some e, _ => Some e
  | None, None, Some e => Some e
  | None, None, None => None
  end.

(** The world once the command has been sent. *)
Definition afterCommand (w : World) : World :=
  set_conn (MonCommand (conn w) versionCommand).1 w.

(** [setCephVersion] (lines 144-169) *)
Definition setCephVersion (c : CephExporter) : M (option error) :=
  fetched <- fetchCephVersion c ;;
  match fetched with
  | inr err => ret (Some err)
  | inl parsedVersion =>
      Lock versionLock set_versionLock >>
      modify (set_CephVersion parsedVersion) >>
      Unlock versionLock set_versionLock >>
      ret None
  end.

(** [cc.Describe(ch)] and [cc.Collect(ch)] of a sub-collector *)
Definition callDescribe (cc : Collector) : M unit :=
  modify (fun w => set_invoked (invoked w ++ [cc]) (set_descs (descs w ++ subDescribe cc) w)).

Definition callCollect (cc : Collector) : M unit :=
  modify (fun w =>
    let '(conn', sent) := subCollect cc (CephVersion w) (conn w) in
    set_invoked (invoked w ++ [cc]) (set_metrics (metrics w ++ sent) (set_conn conn' w))).

Definition failedToSetCephVersion (err : error) : Entry :=
  mkEntry ErrorLevel "failed to set ceph version" (Some err) [].

(** [Describe] (lines 173-183) *)
Definition Describe (c : CephExporter) : M unit :=
  err <- setCephVersion c ;;
  match err with
  | Some e => log (failedToSetCephVersion e)
  | None =>
      let '(ccs, warnings) := getCollectors c in
      logAll warnings >>
      forEach ccs callDescribe
  end.

(** [Collect] (lines 188-201) *)
Definition Collect (c : CephExporter) : M unit :=
  err <- setCephVersion c ;;
  match err with
  | Some e => log (failedToSetCephVersion e)
  | None =>
      Lock mu set_mu >>
      defer (Unlock mu set_mu)
        (let '(ccs, warnings) := getCollectors c in
         logAll warnings >>
         forEach ccs callCollect)
  end.

(** ** Concurrent invocations of [Collect]

    Several scrapes call [Collect] on one exporter, each with a channel
    of its own.  An invocation is cut at its statements; a schedule
    picks which invocation runs its next statement. *)

Inductive PC : Type :=
| AtSetCephVersion                       (* line 189: lines 145-162 *)
| AtVersionLock (parsed : option Version)    (* line 164 *)
| AtVersionStore (parsed : option Version)   (* line 165 *)
| AtVersionUnlock                        (* line 166 *)
| AtMuLock                               (* line 195 *)
| AtGetCollectors                        (* line 198, [c.getCollectors()] *)
| AtPass (rest : list Collector)         (* lines 198-200, then the deferred unlock *)
| Finished.

(** The statement at a program point, and the point it leads to. *)
Definition statement (c : CephExporter) (p : PC) : M PC :=
  match p with
  | AtSetCephVersion =>
      fetched <- fetchCephVersion c ;;
      match fetched with
      | inr e => log (failedToSetCephVersion e) >> ret Finished
      | inl parsedVersion => ret (AtVersionLock parsedVersion)
      end
  | AtVersionLock parsedVersion =>
      Lock versionLock set_versionLock >> ret (AtVersionStore parsedVersion)
  | AtVersionStore parsedVersion =>
      modify (set_CephVersion parsedVersion) >> ret AtVersionUnlock
  | AtVersionUnlock =>
      Unlock versionLock set_versionLock >> ret AtMuLock
  | AtMuLock =>
      Lock mu set_mu >> ret AtGetCollectors
  | AtGetCollectors =>
      let '(ccs, warnings) := getCollectors c in
      logAll warnings >> ret (AtPass ccs)
  | AtPass (cc :: rest) =>
      callCollect cc >> ret (AtPass rest)
  | AtPass [] =>
      Unlock mu set_mu >> ret Finished
  | Finished => fun w => (Blocked, w)
  end.

Record Thread := mkThread {
  pc : PC;
  ch : list prometheus.Metric
}.

(** The shared world and the invocations.  The [metrics] field of the
    world is the channel of the invocation that runs. *)
Record Machine := mkMachine {
  world : World;
  threads : list Thread
}.

(** Invocation [i] runs its next statement.  No step when there is no
    such invocation, when it has finished, when it waits on a held lock,
    or when the statement ends the process. *)
Definition step (c : CephExporter) (i : nat) (m : Machine) : option Machine :=
  match threads m !! i with
  | None => None
  | Some t =>
      match statement c (pc t) (set_metrics (ch t) (world m)) with
      | (Return p', w') =>
          Some (mkMachine w' (<[i := mkThread p' (metrics w')]> (threads m)))
      | _ => None
      end
  end.

Fixpoint exec (c : CephExporter) (schedule : list nat) (m : Machine) : option Machine :=
  match schedule with
  | [] => Some m
  | i :: rest =>
      match step c i m with
      | Some m' => exec c rest m'
      | None => None
      end
  end.

(** [n] invocations about to start. *)
Definition start (w : World) (n : nat) : Machine :=
  mkMachine w (replicate n (mkThread AtSetCephVersion [])).

(** The program points between [c.mu.Lock()] and the deferred
    [c.mu.Unlock()]. *)
Definition guarded (p : PC) : bool :=
  match p with
  | AtGetCollectors | AtPass _ => true
  | _ => false
  end.

(** An invocation is inside the section that [mu] guards. *)
Definition holdsMu (t : Thread) : bool := guarded (pc t).

(** The number of invocations inside that section. *)
Definition weight (t : Thread) : nat := if holdsMu t then 1%nat else 0%nat.

Definition holders (ts : list Thread) : nat := sum_list (map weight ts).

(** No more invocations are inside the guarded section than [mu]
    accounts for. *)
Definition accounted (m : Machine) : Prop :=
  (holders (threads m) <= if mu (world m) then 1 else 0)%nat.

Definition finished (t : Thread) : bool :=
  match pc t with
  | Finished => true
  | _ => false
  end.




(** ** More of what the properties speak of *)

(** A pass over sub-collectors that all read the version [v]: the
    connection is handed from one to the next, the metrics are sent in that
    order. *)
Fixpoint passOver (ccs : list Collector) (v : option Version) (cn : C)
  : C * list prometheus.Metric :=
  match ccs with
  | [] => (cn, [])
  | cc :: rest =>
      let '(cn', sent) := subCollect cc v cn in
      let '(cn'', more) := passOver rest v cn' in
      (cn'', sent ++ more)
  end.

(** The program points between [versionLock.Lock()] and
    [versionLock.Unlock()] (lines 164-166). *)
Definition storing (p : PC) : bool :=
  match p with
  | AtVersionStore _ | AtVersionUnlock => true
  | _ => false
  end.

Definition holdsVersionLock (t : Thread) : bool := storing (pc t).

(** How many of the invocations satisfy a test. *)
Definition countOf (test : Thread -> bool) (ts : list Thread) : nat :=
  sum_list (map (fun t => if test t then 1%nat else 0%nat) ts).

(** Each lock is held exactly when one invocation is inside the section
    it guards, and by no more than one. *)
Definition balanced (m : Machine) : Prop :=
  countOf holdsMu (threads m) = (if mu (world m) then 1 else 0)%nat
  /\ countOf holdsVersionLock (threads m) = (if versionLock (world m) then 1 else 0)%nat.

(** An upper bound on the statements an invocation has left. *)
Definition stepsLeft (c : CephExporter) (p : PC) : nat :=
  let pass := length (getCollectors c).1 in
  match p with
  | AtSetCephVersion => 7 + pass
  | AtVersionLock _ => 6 + pass
  | AtVersionStore _ => 5 + pass
  | AtVersionUnlock => 4 + pass
  | AtMuLock => 3 + pass
  | AtGetCollectors => 2 + pass
  | AtPass rest => 1 + length rest
  | Finished => 0
  end.

Definition stepsLeftAll (c : CephExporter) (ts : list Thread) : nat :=
  sum_list (map (fun t => stepsLeft c (pc t)) ts).

(** The sub-collectors an invocation inside its loop has yet to call. *)
Definition remaining (t : Thread) : list Collector :=
  match pc t with
  | AtPass rest => rest
  | _ => []
  end.

(** The invocation is inside the loop of lines 198-200. *)
Definition looping (t : Thread) : bool :=
  match pc t with
  | AtPass _ => true
  | _ => false
  end.

(** The calls of sub-collectors made so far are whole passes over the
    active list, [k] of them, followed by the part [done] of the pass that
    the invocation inside its loop has made. *)
Definition wholePasses (c : CephExporter) (m : Machine) : Prop :=
  exists k done,
    invoked (world m) = concat (replicate k (getCollectors c).1) ++ done
    /\ (forall i t rest,
          threads m !! i = Some t -> pc t = AtPass rest -> done ++ rest = (getCollectors c).1)
    /\ ((forall i t, threads m !! i = Some t -> looping t = false) -> done = []).

(** The statement at a program point can run in a world: a [Lock] needs
    its mutex free, an [Unlock] needs it held, a finished invocation has no
    statement left. *)
Definition ready (p : PC) (w : World) : bool :=
  match p with
  | AtVersionLock _ => negb (versionLock w)
  | AtVersionUnlock => versionLock w
  | AtMuLock => negb (mu w)
  | AtPass [] => mu w
  | Finished => false
  | _ => true
  end.

End Model.

Arguments World C {_}.
Arguments Machine C {_}.
Arguments Thread C {_}.
Arguments PC C {_}.

End Exporter.

(** * Package [ceph]: the gateway wrappers and the bucket-usage collector *)

Module ceph.

(** An element of [BucketStats.Buckets]. *)
Module bucket.
Record t := mk {
  Bucket : string;
  NumShards : Z;
  ID : string;
  Owner : string;
  Mtime : string;
  CreationTime : string
}.
End bucket.

(** An element of [BucketUsage.Summary[_].Categories]. *)
Module category.
Record t := mk {
  Category : string;
  BytesSent : Z;
  BytesReceived : Z;
  Ops : Z;
  SuccessfulOps : Z
}.
End category.

(** An element of [BucketUsage.Summary]. *)
Module summary.
Record t := mk {
  User : string;
  Categories : list category.t
}.
End summary.

Record BucketStats := mkBucketStats { Buckets : list bucket.t }.
Record BucketUsage := mkBucketUsage { Summary : list summary.t }.

(** What the package takes from outside the two files: the constants
    [radosgwAdminPath] and [cephNamespace], [exec.Command(name,
    args...).Output()] on the argument vector, and [json.Unmarshal] into
    the two targets (what it leaves in the target, and the error). *)
Class Imports := {
  radosgwAdminPath : string;
  cephNamespace : string;
  Output : list string -> bytes * option error;
  decodeBuckets : bytes -> list bucket.t * option error;
  decodeUsage : bytes -> BucketUsage * option error
}.

(** The part of [Exporter] that [NewBucketUsageCollector] reads as values. *)
Record Exporter := mkExporter {
  Cluster : string;
  Config : string;
  User : string
}.

Module BucketUsageCollector.
Record t := mk {
  config : string;
  user : string;
  BytesSent : prometheus.Desc;
  BytesReceived : prometheus.Desc;
  Ops : prometheus.Desc;
  SuccessfulOps : prometheus.Desc;
  listBucketStats : string -> string -> bytes * option error;
  showBucketUsage : string -> string -> string -> string -> bytes * option error
}.
End BucketUsageCollector.

Section Package.
Context `{!Imports}.

(** [json.Unmarshal]: an empty input is a syntax error and the target
    keeps its zero value. *)
Definition Unmarshal {A} (decode : bytes -> A * option error) (zero : A) (buf : bytes)
  : A * option error :=
  match buf with
  | [] => (zero, Some (SyntaxError "unexpected end of JSON input"))
  | _ => decode buf
  end.

(** [listBucketStats] (lines 35-46 of the wrappers) *)
Definition listBucketStats (config user : string) : bytes * option error :=
  match Output [radosgwAdminPath; "-c"; config; "--user"; user;
                "bucket"; "stats"; "--format"; "json"] with
  | (_, Some err) => ([], Some err)
  | (out, None) => (out, None)
  end.

(** [showBucketUsage] (lines 49-61 of the wrappers) *)
Definition showBucketUsage (config user bucket uid : string) : bytes * option error :=
  match Output [radosgwAdminPath; "-c"; config; "--user"; user;
                "usage"; "show"; "--bucket"; bucket;
                "--categories"; "put_obj,get_obj";
                "--show-log-entries"; "false"; "--uid"; uid;
                "--format"; "json"] with
  | (_, Some err) => ([], Some err)
  | (out, None) => (out, None)
  end.

Definition bucketLabel : list string := ["bucket"; "user"; "category"].

(** [NewBucketUsageCollector] (lines 36-59) *)
Definition NewBucketUsageCollector (exporter : Exporter) : BucketUsageCollector.t :=
  let subSystem := "bucket_usage" in
  let labels : gmap string string := <["cluster" := Cluster exporter]> ∅ in
  BucketUsageCollector.mk
    (Config exporter)
    (User exporter)
    (prometheus.NewDesc (cephNamespace +:+ "_" +:+ subSystem +:+ "_bytes_sent")
       "Number of bytes sent by the RADOS Gateway." bucketLabel labels)
    (prometheus.NewDesc (cephNamespace +:+ "_" +:+ subSystem +:+ "_bytes_recived")
       "Number of bytes received by the RADOS Gateway." bucketLabel labels)
    (prometheus.NewDesc (cephNamespace +:+ "_" +:+ subSystem +:+ "_ops")
       "Number of operations." bucketLabel labels)
    (prometheus.NewDesc (cephNamespace +:+ "_" +:+ subSystem +:+ "_successful_ops")
       "Number of successful operations." bucketLabel labels)
    listBucketStats
    showBucketUsage.

(** ** [collect] (lines 61-103)

    The variables that the goroutines of the fan-out share: [buf] and
    [err], declared on line 62 and assigned (with [=]) on line 81 by every
    goroutine, [latestErr], the channel and the logger's output.
    [panicked] is set when a [Must...] constructor panics, which ends the
    process. *)
Record Shared := mkShared {
  buf : bytes;
  err : option error;
  latestErr : option error;
  ch : list prometheus.Metric;
  logged : list Entry;
  panicked : option error
}.

(** The arguments of one [MustNewConstMetric] call of lines 93-96; the
    value type is [GaugeValue] in all four. *)
Definition Sample : Type := prometheus.Desc * Z * list string.

(** The calls of lines 91-98, in the order of the two loops. *)
Definition samplesOf (b : BucketUsageCollector.t) (bucket : bucket.t) (usage : BucketUsage)
  : list Sample :=
  flat_map (fun summary =>
    flat_map (fun category =>
      let labels := [bucket.Bucket bucket; summary.User summary; category.Category category] in
      [ (BucketUsageCollector.BytesSent b, category.BytesSent category, labels);
        (BucketUsageCollector.BytesReceived b, category.BytesReceived category, labels);
        (BucketUsageCollector.Ops b, category.Ops category, labels);
        (BucketUsageCollector.SuccessfulOps b, category.SuccessfulOps category, labels) ])
      (summary.Categories summary))
    (Summary usage).

(** Where a goroutine stands in the function literal of lines 79-99, one
    point for each statement that reads or writes a shared variable.  The
    [err] of line 87 and [usage] belong to the goroutine: they travel with
    its program point, [usage] as the samples it gives. *)
Inductive Task : Type :=
| AtLookup                      (* line 81 *)
| AtCheck                       (* line 82, the test of [err] *)
| AtLogLookup                   (* line 83 *)
| AtStoreLookup                 (* line 84 *)
| AtDecode                      (* lines 86-87 *)
| AtLogDecode (e : error) (pending : list Sample)     (* line 88 *)
| AtStoreDecode (e : error) (pending : list Sample)   (* line 89 *)
| AtSend (pending : list Sample)    (* lines 91-98; then [wg.Done()] *)
| TaskDone.

Record Goroutine := mkGoroutine {
  bucket : bucket.t;
  at_ : Task
}.

(** Line 81: [buf, err = b.showBucketUsage(...)]. *)
Definition lookup (b : BucketUsageCollector.t) (bt : bucket.t) (s : Shared) : Shared :=
  let '(out, e) :=
    BucketUsageCollector.showBucketUsage b
      (BucketUsageCollector.config b) (BucketUsageCollector.user b)
      (bucket.Bucket bt) (bucket.Owner bt) in
  mkShared out e (latestErr s) (ch s) (logged s) (panicked s).

(** Line 83: the entry carries what the shared [err] holds when the line
    runs. *)
Definition logLookup (bt : bucket.t) (s : Shared) : Shared :=
  mkShared (buf s) (err s) (latestErr s) (ch s)
    (logged s ++ [mkEntry ErrorLevel "error getting bucket'usage" (err s)
                    [("bucket", FieldString (bucket.Bucket bt))]])
    (panicked s).

(** Line 84: [latestErr = err], with what [err] holds when the line runs. *)
Definition storeLookup (s : Shared) : Shared :=
  mkShared (buf s) (err s) (err s) (ch s) (logged s) (panicked s).

(** Lines 86-87: decode the shared [buf] into a fresh [usage]; the samples
    that [usage] gives, and the error, which is the goroutine's own. *)
Definition unmarshal (b : BucketUsageCollector.t) (bt : bucket.t) (s : Shared)
  : list Sample * option error :=
  let '(usage, e) := Unmarshal decodeUsage (mkBucketUsage []) (buf s) in
  (samplesOf b bt usage, e).

(** Line 88 *)
Definition logDecode (bt : bucket.t) (e : error) (s : Shared) : Shared :=
  mkShared (buf s) (err s) (latestErr s) (ch s)
    (logged s ++ [mkEntry ErrorLevel "error unmarhal bucket'usage" (Some e)
                    [("bucket", FieldString (bucket.Bucket bt))]])
    (panicked s).

(** Line 89 *)
Definition storeDecode (e : error) (s : Shared) : Shared :=
  mkShared (buf s) (err s) (Some e) (ch s) (logged s) (panicked s).

(** Lines 82-84 in a row, for a goroutine that runs to its end without
    another one in between ([finish] below); [step] runs them one by one. *)
Definition check (bt : bucket.t) (s : Shared) : Shared :=
  match err s with
  | Some _ => storeLookup (logLookup bt s)
  | None => s
  end.

(** Lines 86-89 in a row, likewise.  On an error the goroutine goes on
    with what the decoder left in [usage]. *)
Definition decode (b : BucketUsageCollector.t) (bt : bucket.t) (s : Shared)
  : list Sample * Shared :=
  let '(pending, e) := unmarshal b bt s in
  (pending,
   match e with
   | Some e => storeDecode e (logDecode bt e s)
   | None => s
   end).

(** One of lines 93-96: build the metric and send it. *)
Definition send (x : Sample) (s : Shared) : Shared :=
  let '(d, v, labels) := x in
  match prometheus.MustNewConstMetric d prometheus.GaugeValue v labels with
  | inl m => mkShared (buf s) (err s) (latestErr s) (ch s ++ [m]) (logged s) (panicked s)
  | inr e => mkShared (buf s) (err s) (latestErr s) (ch s) (logged s) (Some e)
  end.

(** Where the test of line 82 leads, and where the decoding of line 87. *)
Definition afterCheck (s : Shared) : Task :=
  match err s with
  | Some _ => AtLogLookup
  | None => AtDecode
  end.

Definition afterDecode (r : list Sample * option error) : Task :=
  match r.2 with
  | Some e => AtLogDecode e r.1
  | None => AtSend r.1
  end.

(** Goroutine [i] runs its next statement.  No step when there is no
    such goroutine, when it is done, or when the process has ended. *)
Definition step (b : BucketUsageCollector.t) (i : nat) (st : Shared * list Goroutine)
  : option (Shared * list Goroutine) :=
  let '(s, gs) := st in
  match panicked s, gs !! i with
  | None, Some g =>
      let bt := bucket g in
      match at_ g with
      | AtLookup => Some (lookup b bt s, <[i := mkGoroutine bt AtCheck]> gs)
      | AtCheck => Some (s, <[i := mkGoroutine bt (afterCheck s)]> gs)
      | AtLogLookup => Some (logLookup bt s, <[i := mkGoroutine bt AtStoreLookup]> gs)
      | AtStoreLookup => Some (storeLookup s, <[i := mkGoroutine bt AtDecode]> gs)
      | AtDecode => Some (s, <[i := mkGoroutine bt (afterDecode (unmarshal b bt s))]> gs)
      | AtLogDecode e pending =>
          Some (logDecode bt e s, <[i := mkGoroutine bt (AtStoreDecode e pending)]> gs)
      | AtStoreDecode e pending =>
          Some (storeDecode e s, <[i := mkGoroutine bt (AtSend pending)]> gs)
      | AtSend (x :: pending) => Some (send x s, <[i := mkGoroutine bt (AtSend pending)]> gs)
      | AtSend [] => Some (s, <[i := mkGoroutine bt TaskDone]> gs)
      | TaskDone => None
      end
  | _, _ => None
  end.

(** The goroutines run as the schedule picks them; a pick that cannot
    step is skipped. *)
Fixpoint run (b : BucketUsageCollector.t) (schedule : list nat) (st : Shared * list Goroutine)
  : Shared * list Goroutine :=
  match schedule with
  | [] => st
  | i :: rest =>
      match step b i st with
      | Some st' => run b rest st'
      | None => run b rest st
      end
  end.

(** The samples that a goroutine has computed and not yet sent. *)
Definition pendingOf (t : Task) : list Sample :=
  match t with
  | AtLogDecode _ pending | AtStoreDecode _ pending | AtSend pending => pending
  | _ => []
  end.

(** A goroutine runs to its end without another one in between: the
    statements that [step] would run for it, in a row. *)
Fixpoint sendAll (pending : list Sample) (s : Shared) : Shared :=
  match pending with
  | [] => s
  | x :: rest =>
      let s' := send x s in
      match panicked s' with
      | None => sendAll rest s'
      | Some _ => s'
      end
  end.

Definition finish (b : BucketUsageCollector.t) (g : Goroutine) (s : Shared) : Shared :=
  match panicked s with
  | Some _ => s
  | None =>
      let bt := bucket g in
      match at_ g with
      | AtLookup => let '(pending, s') := decode b bt (check bt (lookup b bt s)) in sendAll pending s'
      | AtCheck => let '(pending, s') := decode b bt (check bt s) in sendAll pending s'
      | AtLogLookup =>
          let '(pending, s') := decode b bt (storeLookup (logLookup bt s)) in sendAll pending s'
      | AtStoreLookup => let '(pending, s') := decode b bt (storeLookup s) in sendAll pending s'
      | AtDecode => let '(pending, s') := decode b bt s in sendAll pending s'
      | AtLogDecode e pending => sendAll pending (storeDecode e (logDecode bt e s))
      | AtStoreDecode e pending => sendAll pending (storeDecode e s)
      | AtSend pending => sendAll pending s
      | TaskDone => s
      end
  end.

(** [wg.Wait()]: every goroutine that the schedule left unfinished runs
    to its end, in the order of the loop. *)
Definition drain (b : BucketUsageCollector.t) (st : Shared * list Goroutine) : Shared :=
  foldl (fun s g => finish b g s) (fst st) (snd st).

(** Lines 76-100: one goroutine per bucket. *)
Definition spawn (buckets : list bucket.t) : list Goroutine :=
  map (fun bt => mkGoroutine bt AtLookup) buckets.

(** [collect], with the schedule of its goroutines: what it returns,
    and the shared variables at that point ([ch]: the metrics sent,
    [logged]: the entries logged). *)
Definition collect (b : BucketUsageCollector.t) (schedule : list nat) : option error * Shared :=
  let '(out, e) := listBucketStats (BucketUsageCollector.config b) (BucketUsageCollector.user b) in
  let s := mkShared out e None [] [] None in
  match e with
  | Some e =>
      (Some e,
       mkShared out (Some e) None []
         [mkEntry ErrorLevel "error list bucket stats" (Some e)
            [("config", FieldString (BucketUsageCollector.config b));
             ("user", FieldString (BucketUsageCollector.user b))]]
         None)
  | None =>
      let '(buckets, e) := Unmarshal decodeBuckets [] out in
      match e with
      | Some e => (Some e, s)
      | None =>
          let s' := drain b (run b schedule (s, spawn buckets)) in
          (latestErr s', s')
      end
  end.

(** [Describe] (lines 107-112): the descriptors sent, in order. *)
Definition Describe (b : BucketUsageCollector.t) : list prometheus.Desc :=
  [BucketUsageCollector.BytesSent b;
   BucketUsageCollector.BytesReceived b;
   BucketUsageCollector.Ops b;
   BucketUsageCollector.SuccessfulOps b].

(** [Collect] (lines 116-122): the metrics sent and the entries logged. *)
Definition Collect (b : BucketUsageCollector.t) (schedule : list nat)
  : list prometheus.Metric * list Entry :=
  let debug := mkEntry DebugLevel "collecting bucket usage metrics" None [] in
  let '(e, s) := collect b schedule in
  match e with
  | Some e =>
      (ch s, debug :: logged s ++
               [mkEntry ErrorLevel "error collecting bucket usage metrics" (Some e) []])
  | None => (ch s, debug :: logged s)
  end.

(** ** What the properties below speak of *)

(** The buckets that [collect] enumerates (lines 62-70). *)
Definition enumerated (b : BucketUsageCollector.t) : list bucket.t :=
  (Unmarshal decodeBuckets []
     (listBucketStats (BucketUsageCollector.config b) (BucketUsageCollector.user b)).1).1.

(** A metric's label names, each with the value it carries. *)
Definition labelled (m : prometheus.Metric) : list (string * string) :=
  zip (prometheus.variableLabels (prometheus.desc m)) (prometheus.labelValues m).

(** Two collectors that differ at most in their [listBucketStats] field. *)
Definition sameButListBucketStats (b1 b2 : BucketUsageCollector.t) : Prop :=
  BucketUsageCollector.config b1 = BucketUsageCollector.config b2
  /\ BucketUsageCollector.user b1 = BucketUsageCollector.user b2
  /\ BucketUsageCollector.BytesSent b1 = BucketUsageCollector.BytesSent b2
  /\ BucketUsageCollector.BytesReceived b1 = BucketUsageCollector.BytesReceived b2
  /\ BucketUsageCollector.Ops b1 = BucketUsageCollector.Ops b2
  /\ BucketUsageCollector.SuccessfulOps b1 = BucketUsageCollector.SuccessfulOps b2
  /\ BucketUsageCollector.showBucketUsage b1 = BucketUsageCollector.showBucketUsage b2.

(** The four descriptors declare the labels of [bucketLabel]. *)
Definition declaresBucketLabel (b : BucketUsageCollector.t) : Prop :=
  prometheus.variableLabels (BucketUsageCollector.BytesSent b) = bucketLabel
  /\ prometheus.variableLabels (BucketUsageCollector.BytesReceived b) = bucketLabel
  /\ prometheus.variableLabels (BucketUsageCollector.Ops b) = bucketLabel
  /\ prometheus.variableLabels (BucketUsageCollector.SuccessfulOps b) = bucketLabel.

(** What the lookup of one bucket gives when nothing runs in between: the
    reply of line 81 and the usage decoded from that reply. *)
Definition ownReply (b : BucketUsageCollector.t) (bt : bucket.t) : bytes * option error :=
  BucketUsageCollector.showBucketUsage b
    (BucketUsageCollector.config b) (BucketUsageCollector.user b)
    (bucket.Bucket bt) (bucket.Owner bt).

Definition ownUsage (b : BucketUsageCollector.t) (bt : bucket.t) : BucketUsage * option error :=
  Unmarshal decodeUsage (mkBucketUsage []) (ownReply b bt).1.

(** The lookup of a bucket fails: line 81 returns an error or the reply
    does not decode. *)
Definition lookupFails (b : BucketUsageCollector.t) (bt : bucket.t) : bool :=
  bool_decide ((ownReply b bt).2 <> None \/ (ownUsage b bt).2 <> None).

(** The metric of one call of lines 93-96. *)
Definition metricOf (x : Sample) : prometheus.Metric :=
  prometheus.mkMetric x.1.1 prometheus.GaugeValue x.1.2 x.2.

(** Fan-out aggregation, for one schedule: every sample of every bucket
    whose lookup succeeds is sent, and when some lookup fails the error
    returned is not nil. *)
Definition keepsSucceeding (b : BucketUsageCollector.t) (schedule : list nat) : Prop :=
  (forall bt x,
      bt ∈ enumerated b ->
      lookupFails b bt = false ->
      x ∈ samplesOf b bt (ownUsage b bt).1 ->
      metricOf x ∈ ch (collect b schedule).2)
  /\ (Exists (fun bt => lookupFails b bt = true) (enumerated b) ->
      (collect b schedule).1 <> None).

(** A metric carries as many label values as its descriptor declares
    names, and they are, name by name, a bucket of the list, a user and a
    category. *)
Definition wellLabelled (bts : list bucket.t) (m : prometheus.Metric) : Prop :=
  length (prometheus.labelValues m) = length (prometheus.variableLabels (prometheus.desc m))
  /\ exists bt su ca,
       bt ∈ bts
       /\ labelled m = [("bucket", bucket.Bucket bt);
                        ("user", summary.User su);
                        ("category", category.Category ca)].

(** The goroutines of a fan-out over [bts] are in a sound state: the
    process has not panicked, what was sent is well labelled, and so is what
    the goroutines are about to send. *)
Definition soundTask (bts : list bucket.t) (g : Goroutine) : Prop :=
  bucket g ∈ bts
  /\ Forall (fun x => wellLabelled bts (metricOf x)) (pendingOf (at_ g)).

Definition soundShared (bts : list bucket.t) (s : Shared) : Prop :=
  panicked s = None /\ Forall (wellLabelled bts) (ch s).

Definition sound (bts : list bucket.t) (st : Shared * list Goroutine) : Prop :=
  panicked st.1 = None
  /\ Forall (wellLabelled bts) (ch st.1)
  /\ Forall (soundTask bts) st.2.

(** The entries of [Collect] (lines 117 and 119) and of line 64. *)
Definition collecting : Entry :=
  mkEntry DebugLevel "collecting bucket usage metrics" None [].

Definition errorCollecting (e : error) : Entry :=
  mkEntry ErrorLevel "error collecting bucket usage metrics" (Some e) [].

Definition errorListing (b : BucketUsageCollector.t) (e : error) : Entry :=
  mkEntry ErrorLevel "error list bucket stats" (Some e)
    [("config", FieldString (BucketUsageCollector.config b));
     ("user", FieldString (BucketUsageCollector.user b))].

(** The error that ends [collect] before the fan-out: that of the command
    (line 63) or that of the decoding of its output (line 68). *)
Definition enumerationError (b : BucketUsageCollector.t) : option error :=
  let r := listBucketStats (BucketUsageCollector.config b) (BucketUsageCollector.user b) in
  match r.2 with
  | Some e => Some e
  | None => (Unmarshal decodeBuckets [] r.1).2
  end.

(** A metric of one of the descriptors that [Describe] sends, and a
    gauge. *)
Definition described (b : BucketUsageCollector.t) (m : prometheus.Metric) : Prop :=
  prometheus.desc m ∈ Describe b /\ prometheus.valueType m = prometheus.GaugeValue.

(** An entry that a goroutine of the fan-out logs (lines 83 and 88): at
    the error level, with the bucket, one of [bts], as its only field.  The
    entry of line 88 carries the error of the decoding; the entry of line 83
    carries what the shared [err] held when the line ran. *)
Definition bucketEntry (bts : list bucket.t) (en : Entry) : Prop :=
  level en = ErrorLevel
  /\ (message en = "error getting bucket'usage"
      \/ (message en = "error unmarhal bucket'usage" /\ withError en <> None))
  /\ exists bt, bt ∈ bts /\ withFields en = [("bucket", FieldString (bucket.Bucket bt))].

(** The goroutine is about to assign [latestErr] (lines 84 and 89): it has
    logged its entry. *)
Definition aboutToStore (t : Task) : bool :=
  match t with
  | AtStoreLookup | AtStoreDecode _ _ => true
  | _ => false
  end.

(** The fan-out keeps its books: what was sent is described, what was
    logged are bucket entries, [latestErr] is nil as long as nothing was
    logged, and what the goroutines are about to send goes to a described
    descriptor. *)
Definition tidyShared (b : BucketUsageCollector.t) (bts : list bucket.t) (s : Shared) : Prop :=
  Forall (described b) (ch s)
  /\ Forall (bucketEntry bts) (logged s)
  /\ (logged s = [] -> latestErr s = None).

Definition tidyTask (b : BucketUsageCollector.t) (bts : list bucket.t) (g : Goroutine) : Prop :=
  bucket g ∈ bts
  /\ Forall (fun x : Sample => x.1.1 ∈ Describe b) (pendingOf (at_ g)).

Definition tidy (b : BucketUsageCollector.t) (bts : list bucket.t) (st : Shared * list Goroutine)
  : Prop :=
  tidyShared b bts st.1
  /\ Forall (tidyTask b bts) st.2
  /\ (logged st.1 = [] -> Forall (fun g => aboutToStore (at_ g) = false) st.2).

(** A sample of one of the buckets computed from the reply to the lookup
    of one of the buckets, the same or another. *)
Definition crossed (b : BucketUsageCollector.t) (bts : list bucket.t) (x : Sample) : Prop :=
  exists bt bt', bt ∈ bts /\ bt' ∈ bts /\ x ∈ samplesOf b bt (ownUsage b bt').1.

(** Nil, or the error of the lookup of one of the buckets: that of its
    command or that of the decoding of its reply. *)
Definition lookupError (b : BucketUsageCollector.t) (bts : list bucket.t) (e : option error)
  : Prop :=
  e = None \/ exists bt, bt ∈ bts /\ ((ownReply b bt).2 = e \/ (ownUsage b bt).2 = e).

(** [buf] holds the reply to the lookup of one of the buckets. *)
Definition looked (b : BucketUsageCollector.t) (bts : list bucket.t) (s : Shared) : Prop :=
  exists bt, bt ∈ bts /\ buf s = (ownReply b bt).1.

(** The goroutine is on the path without error: it is not between the
    test of line 82 and line 84, nor between lines 87 and 89. *)
Definition errorFree (t : Task) : bool :=
  match t with
  | AtLogLookup | AtStoreLookup | AtLogDecode _ _ | AtStoreDecode _ _ => false
  | _ => true
  end.

(** The error that a goroutine carries from line 87 to lines 88 and 89. *)
Definition carried (t : Task) : option error :=
  match t with
  | AtLogDecode e _ | AtStoreDecode e _ => Some e
  | _ => None
  end.

(** Nothing was logged and no goroutine is on a path with an error. *)
Definition calm (st : Shared * list Goroutine) : Prop :=
  logged st.1 = [] /\ Forall (fun g => errorFree (at_ g) = true) st.2.

(** Everything in the shared variables can be traced to the lookup of a
    bucket; [buf] holds a reply as soon as one goroutine is past line 81;
    and as long as the lookup of no bucket fails, all is calm. *)
Definition tracedShared (b : BucketUsageCollector.t) (bts : list bucket.t) (s : Shared) : Prop :=
  Forall (fun m => exists x, crossed b bts x /\ m = metricOf x) (ch s)
  /\ lookupError b bts (err s)
  /\ lookupError b bts (latestErr s).

Definition tracedTask (b : BucketUsageCollector.t) (bts : list bucket.t) (g : Goroutine) : Prop :=
  bucket g ∈ bts
  /\ Forall (crossed b bts) (pendingOf (at_ g))
  /\ lookupError b bts (carried (at_ g)).

Definition traced (b : BucketUsageCollector.t) (bts : list bucket.t)
    (st : Shared * list Goroutine) : Prop :=
  tracedShared b bts st.1
  /\ (looked b bts st.1 \/ Forall (fun g => at_ g = AtLookup) st.2)
  /\ Forall (tracedTask b bts) st.2
  /\ (Forall (fun bt => lookupFails b bt = false) bts -> calm st).

(** The error [e] is what the decoding of some bucket's own reply gives. *)
Definition decodingError (b : BucketUsageCollector.t) (bts : list bucket.t) (e : option error)
  : Prop :=
  e = None \/ exists bt, bt ∈ bts /\ (ownUsage b bt).2 = e.

End Package.

End ceph.

(** * Test doubles

    A scripted connection and table-driven decoders, for running the
    model on concrete inputs. *)

Module Fake.

Definition q : string -> string := json.quoted.

(** ** For the exporter *)

(** The replies the cluster will give, in order; a command sent after the
    last one fails. *)
Definition Script : Type := list (bytes * string * option error).

#[global] Instance conn : Exporter.Conn Script :=
  fun script _ =>
    match script with
    | [] => ([], ([], "", Some (errorString "rados: connection is shut down")))
    | reply :: rest => (rest, reply)
    end.

Definition versionReply (v : string) : bytes :=
  list_byte_of_string ("{" +:+ q "version" +:+ ":" +:+ q v +:+ "}").

Definition pacific : string := "ceph version 16.2.0 pacific (stable)".
Definition quincy : string := "ceph version 17.2.0 quincy (stable)".

Definition ok (buf : bytes) : bytes * string * option error := (buf, "", None).

Definition unreachable : bytes * string * option error :=
  ([], "", Some (errorString "rados: timed out")).

Definition collectorName (cc : Exporter.Collector) : string :=
  match cc with
  | Exporter.NewClusterUsageCollector _ => "cluster_usage"
  | Exporter.NewPoolUsageCollector _ => "pool_usage"
  | Exporter.NewPoolInfoCollector _ => "pool_info"
  | Exporter.NewClusterHealthCollector _ => "health"
  | Exporter.NewMonitorCollector _ => "monitor"
  | Exporter.NewOSDCollector _ => "osd"
  | Exporter.NewRGWCollector _ _ _ => "rgw"
  end.

Definition collectorDesc (cc : Exporter.Collector) : prometheus.Desc :=
  prometheus.NewDesc (collectorName cc) "" [] ∅.

(** Versions are [(major, minor, patch)]; the decoder and the parser
    know the two releases above.  Every sub-collector describes one
    metric and sends one sample of it, whose value is the major version it
    reads from the shared slot. *)
#[global] Instance imports : Exporter.Imports Script := {|
  Exporter.Version := Z * Z * Z;
  Exporter.ParseCephVersion s :=
    if bool_decide (s = pacific) then (Some (16, 2, 0), None)
    else if bool_decide (s = quincy) then (Some (17, 2, 0), None)
    else (None, Some (errorString "invalid ceph version"));
  Exporter.Unmarshal buf :=
    if bool_decide (buf = versionReply pacific) then (pacific, None)
    else if bool_decide (buf = versionReply quincy) then (quincy, None)
    else if bool_decide (buf = versionReply "") then ("", None)
    else ("", Some (SyntaxError "invalid character"));
  Exporter.subDescribe cc := [collectorDesc cc];
  Exporter.subCollect cc v script :=
    (script,
     [prometheus.mkMetric (collectorDesc cc) prometheus.GaugeValue
        (match v with Some (major, _, _) => major | None => 0 end) []])
|}.

Definition exporter (mode : Z) : Exporter.CephExporter :=
  Exporter.NewCephExporter "ceph" "/etc/ceph/ceph.conf" mode.

(** A world with free locks, nothing logged or sent, and the given
    version in the shared slot. *)
Definition worldAt (v : option (Z * Z * Z)) (script : Script) : Exporter.World Script :=
  Exporter.mkWorld script v false false [] [] [] [].

Definition world (script : Script) : Exporter.World Script := worldAt None script.

(** A cluster that is upgraded between two scrapes. *)
Definition upgraded : Exporter.World Script :=
  world [ok (versionReply pacific); ok (versionReply quincy)].

(** Two scrapes: the first runs up to its second sub-collector (8
    statements); the second refreshes the version (4 statements). *)
Definition midPass : list nat :=
  [0; 0; 0; 0; 0; 0; 0; 0;  1; 1; 1; 1]%nat.

(** Where [midPass] leaves the two scrapes: the first inside its pass,
    four sub-collectors to go; the second, its refresh done, at
    [c.mu.Lock()], where it cannot step. *)
Definition inPass : Exporter.Thread Script :=
  Exporter.mkThread
    (Exporter.AtPass
       [Exporter.NewPoolInfoCollector "ceph"; Exporter.NewClusterHealthCollector "ceph";
        Exporter.NewMonitorCollector "ceph"; Exporter.NewOSDCollector "ceph"])
    [prometheus.mkMetric (collectorDesc (Exporter.NewClusterUsageCollector "ceph"))
       prometheus.GaugeValue 16 [];
     prometheus.mkMetric (collectorDesc (Exporter.NewPoolUsageCollector "ceph"))
       prometheus.GaugeValue 16 []].

Definition waiting : Exporter.Thread Script := Exporter.mkThread Exporter.AtMuLock [].

(** Then the first finishes its pass and unlocks (5 statements), and the
    second locks, runs its pass and unlocks (9 statements). *)
Definition overlapping : list nat :=
  midPass ++ [0; 0; 0; 0; 0;  1; 1; 1; 1; 1; 1; 1; 1; 1]%nat.

(** A world in which a pass is under way: [mu] is held, the slot holds
    the version of an earlier scrape. *)
Definition duringPass (script : Script) : Exporter.World Script :=
  Exporter.mkWorld script (Some (16, 2, 0)) false true [] [] [] [].

(** Two scrapes: the first fetches the version and takes [versionLock];
    the second fetches the version and comes to [versionLock.Lock()]. *)
Definition refreshing : list nat := [0; 0; 1]%nat.

Definition atStore : Exporter.Thread Script :=
  Exporter.mkThread (Exporter.AtVersionStore (Some (16, 2, 0))) [].

Definition atLock : Exporter.Thread Script :=
  Exporter.mkThread (Exporter.AtVersionLock (Some (17, 2, 0))) [].

(** ** For the bucket-usage collector *)

Definition bucketsReply : bytes :=
  list_byte_of_string
    ("[{" +:+ q "bucket" +:+ ":" +:+ q "A" +:+ "," +:+ q "owner" +:+ ":" +:+ q "alice" +:+ "},"
     +:+ "{" +:+ q "bucket" +:+ ":" +:+ q "B" +:+ "," +:+ q "owner" +:+ ":" +:+ q "bob" +:+ "},"
     +:+ "{" +:+ q "bucket" +:+ ":" +:+ q "C" +:+ "," +:+ q "owner" +:+ ":" +:+ q "carol" +:+ "}]").

Definition usageReply : bytes :=
  list_byte_of_string
    ("{" +:+ q "summary" +:+ ":[{" +:+ q "user" +:+ ":" +:+ q "u" +:+ ","
     +:+ q "categories" +:+ ":[{" +:+ q "category" +:+ ":" +:+ q "put_obj" +:+ ","
     +:+ q "bytes_sent" +:+ ":100," +:+ q "bytes_received" +:+ ":50,"
     +:+ q "ops" +:+ ":5," +:+ q "successful_ops" +:+ ":5}]}]}").

Definition A : ceph.bucket.t := ceph.bucket.mk "A" 0 "" "alice" "" "".
Definition B : ceph.bucket.t := ceph.bucket.mk "B" 0 "" "bob" "" "".
Definition C : ceph.bucket.t := ceph.bucket.mk "C" 0 "" "carol" "" "".

Definition putObj : ceph.BucketUsage :=
  ceph.mkBucketUsage
    [ceph.summary.mk "u" [ceph.category.mk "put_obj" 100 50 5 5]].

Definition lookupFailed : error := ExitError 1.

(** [radosgw-admin]: the bucket list is [A], [B], [C]; the usage lookup
    fails for bucket [B] and gives one [put_obj] category for any other. *)
#[global] Instance gateway : ceph.Imports := {|
  ceph.radosgwAdminPath := "radosgw-admin";
  ceph.cephNamespace := "ceph";
  ceph.Output args :=
    match args !! 5%nat, args !! 8%nat with
    | Some "bucket", _ => (bucketsReply, None)
    | Some "usage", Some "B" => ([], Some lookupFailed)
    | Some "usage", Some _ => (usageReply, None)
    | _, _ => ([], Some (ExitError 2))
    end;
  ceph.decodeBuckets buf :=
    if bool_decide (buf = bucketsReply) then ([A; B; C], None)
    else ([], Some (SyntaxError "invalid character"));
  ceph.decodeUsage buf :=
    if bool_decide (buf = usageReply) then (putObj, None)
    else (ceph.mkBucketUsage [], Some (SyntaxError "invalid character"))
|}.

Definition collector : ceph.BucketUsageCollector.t :=
  ceph.NewBucketUsageCollector (ceph.mkExporter "ceph" "/etc/ceph/ceph.conf" "admin").

(** The same collector with an enumeration stub in its field. *)
Definition stubbed : ceph.BucketUsageCollector.t :=
  ceph.BucketUsageCollector.mk
    (ceph.BucketUsageCollector.config collector)
    (ceph.BucketUsageCollector.user collector)
    (ceph.BucketUsageCollector.BytesSent collector)
    (ceph.BucketUsageCollector.BytesReceived collector)
    (ceph.BucketUsageCollector.Ops collector)
    (ceph.BucketUsageCollector.SuccessfulOps collector)
    (fun _ _ => ([], Some (errorString "stub")))
    (ceph.BucketUsageCollector.showBucketUsage collector).

(** The goroutines are numbered in the order of the list: 0 for [A], 1 for
    [B], 2 for [C].

    [B]'s lookup fails (line 81 sets [buf = nil], [err = ExitError]); before
    [B] reaches line 82, [A]'s lookup succeeds (line 81 sets [buf] to [A]'s
    reply, [err = nil]); then [B] runs lines 82-98 and its [wg.Done()].  The
    rest runs one goroutine after the other. *)
Definition overtaken : list nat := [1; 0; 1; 1; 1; 1; 1; 1; 1]%nat.

(** [A]'s lookup succeeds; before [A] reaches line 82, [B]'s lookup fails
    and overwrites [buf] and [err]; then [A] runs lines 82 and 83.  The rest
    runs one goroutine after the other, [A] first with lines 84-90. *)
Definition clobbered : list nat := [0; 1; 0; 0]%nat.

(** [B]'s lookup fails and [B] tests [err] on line 82; before [B] reaches
    line 83, [A]'s lookup succeeds and sets [err] to nil; then [B] runs line
    83. *)
Definition interrupted : list nat := [1; 1; 0; 1]%nat.

(** The first sample of bucket [A]: its bytes sent. *)
Definition firstSample : prometheus.Metric :=
  prometheus.mkMetric (ceph.BucketUsageCollector.BytesSent collector)
    prometheus.GaugeValue 100 ["A"; "u"; "put_obj"].

Definition labelsSent (r : option error * ceph.Shared) : list (list string) :=
  map prometheus.labelValues (ceph.ch r.2).

(** What the scenario of three buckets should give: two sets of four
    samples, an error, and no sample under the bucket label [B]. *)
Definition asExpected (r : option error * ceph.Shared) : Prop :=
  length (ceph.ch r.2) = 8%nat
  /\ r.1 <> None
  /\ Forall (fun labels => labels !! 0%nat <> Some "B") (labelsSent r).

Definition valuesSent (r : option error * ceph.Shared) : list Z :=
  map prometheus.value (ceph.ch r.2).

(** A gateway whose [radosgw-admin] fails whatever it is asked. *)
Definition down : ceph.Imports := {|
  ceph.radosgwAdminPath := "radosgw-admin";
  ceph.cephNamespace := "ceph";
  ceph.Output _ := ([], Some (ExitError 1));
  ceph.decodeBuckets _ := ([], Some (SyntaxError "invalid character"));
  ceph.decodeUsage _ := (ceph.mkBucketUsage [], Some (SyntaxError "invalid character"))
|}.

(** A gateway whose [radosgw-admin] prints nothing and exits with 0. *)
Definition silent : ceph.Imports := {|
  ceph.radosgwAdminPath := "radosgw-admin";
  ceph.cephNamespace := "ceph";
  ceph.Output _ := ([], None);
  ceph.decodeBuckets _ := ([], Some (SyntaxError "invalid character"));
  ceph.decodeUsage _ := (ceph.mkBucketUsage [], Some (SyntaxError "invalid character"))
|}.

Definition lonelyReply : bytes :=
  list_byte_of_string
    ("[{" +:+ q "bucket" +:+ ":" +:+ q "B" +:+ "," +:+ q "owner" +:+ ":" +:+ q "bob" +:+ "}]").

(** A gateway with the single bucket [B], whose usage lookup fails. *)
Definition lonely : ceph.Imports := {|
  ceph.radosgwAdminPath := "radosgw-admin";
  ceph.cephNamespace := "ceph";
  ceph.Output args :=
    match args !! 5%nat with
    | Some "bucket" => (lonelyReply, None)
    | _ => ([], Some lookupFailed)
    end;
  ceph.decodeBuckets buf :=
    if bool_decide (buf = lonelyReply) then ([B], None)
    else ([], Some (SyntaxError "invalid character"));
  ceph.decodeUsage buf :=
    if bool_decide (buf = usageReply) then (putObj, None)
    else (ceph.mkBucketUsage [], Some (SyntaxError "invalid character"))
|}.

Definition bigReply : bytes :=
  list_byte_of_string
    ("{" +:+ q "summary" +:+ ":[{" +:+ q "user" +:+ ":" +:+ q "u" +:+ ","
     +:+ q "categories" +:+ ":[{" +:+ q "category" +:+ ":" +:+ q "get_obj" +:+ ","
     +:+ q "bytes_sent" +:+ ":7000," +:+ q "bytes_received" +:+ ":3000,"
     +:+ q "ops" +:+ ":70," +:+ q "successful_ops" +:+ ":70}]}]}").

Definition getObj : ceph.BucketUsage :=
  ceph.mkBucketUsage
    [ceph.summary.mk "u" [ceph.category.mk "get_obj" 7000 3000 70 70]].

Definition pairReply : bytes :=
  list_byte_of_string
    ("[{" +:+ q "bucket" +:+ ":" +:+ q "A" +:+ "," +:+ q "owner" +:+ ":" +:+ q "alice" +:+ "},"
     +:+ "{" +:+ q "bucket" +:+ ":" +:+ q "C" +:+ "," +:+ q "owner" +:+ ":" +:+ q "carol" +:+ "}]").

(** A gateway with the buckets [A] and [C], both in good order: [A] has
    one [put_obj] category, [C] one [get_obj] category with other numbers. *)
Definition busy : ceph.Imports := {|
  ceph.radosgwAdminPath := "radosgw-admin";
  ceph.cephNamespace := "ceph";
  ceph.Output args :=
    match args !! 5%nat, args !! 8%nat with
    | Some "bucket", _ => (pairReply, None)
    | Some "usage", Some "A" => (usageReply, None)
    | Some "usage", Some "C" => (bigReply, None)
    | _, _ => ([], Some (ExitError 2))
    end;
  ceph.decodeBuckets buf :=
    if bool_decide (buf = pairReply) then ([A; C], None)
    else ([], Some (SyntaxError "invalid character"));
  ceph.decodeUsage buf :=
    if bool_decide (buf = usageReply) then (putObj, None)
    else if bool_decide (buf = bigReply) then (getObj, None)
    else (ceph.mkBucketUsage [], Some (SyntaxError "invalid character"))
|}.

Definition admin : ceph.Exporter := ceph.mkExporter "ceph" "/etc/ceph/ceph.conf" "admin".

(** The collector of [admin] on a given gateway. *)
Definition collectorOn (gw : ceph.Imports) : ceph.BucketUsageCollector.t :=
  @ceph.NewBucketUsageCollector gw admin.

End Fake.

(** * Properties of the listener *)

Module ListenerFacts.
Import Listener.





End ListenerFacts.

(** * Properties of the exporter *)

Module ExporterFacts.
Import Exporter.

Lemma Marshal_versionQuery : json.Marshal versionQuery = (versionCommand, None).
Proof. reflexivity. Qed.

(** C9. [cephVersionCmd] returns the same fixed payload, the JSON
    encoding of the two-entry map, on every call and in every state of the
    exporter; it never takes its panic branch, and it logs nothing. *)
Theorem cephVersionCmd_fixed
  {C : Type} `{!Conn C} `{!Imports C} (c : CephExporter) (w : World C) :
  cephVersionCmd c w = (Return versionCommand, w)
  /\ json.Marshal versionQuery = (versionCommand, None)
  /\ list_byte_of_string
       ("{" +:+ json.quoted "format" +:+ ":" +:+ json.quoted "json" +:+ ","
            +:+ json.quoted "prefix" +:+ ":" +:+ json.quoted "version" +:+ "}")
     = versionCommand.
Proof. by repeat split. Qed.

(** Whatever the mode, the six standard sub-collectors head the list. *)
Lemma getCollectors_standard c :
  exists gateway, fst (getCollectors c) = standard c ++ gateway.
Proof.
  unfold getCollectors.
  destruct (rgwMode c =? RGWModeForeground); [by eexists|].
  destruct (rgwMode c =? RGWModeBackground); [by eexists|].
  destruct (rgwMode c =? RGWModeDisabled); by exists [].
Qed.

Section Calls.
Context {C : Type} `{!Conn C} `{!Imports C}.
Implicit Types (c : CephExporter) (w : World C) (e : error).

Lemma fetchCephVersion_eq c w :
  fetchCephVersion c w =
    (Return (match failure w with Some e => inr e | None => inl (parsed w).1 end),
     afterCommand w).
Proof.
  unfold fetchCephVersion, bind, cephVersionCmd, monCommand, failure, parsed, decoded,
    reply, afterCommand.
  rewrite Marshal_versionQuery. simpl.
  destruct (MonCommand (conn w) versionCommand) as [conn' [[buf out] sendErr]]. simpl.
  destruct sendErr; [done|].
  destruct (Unmarshal buf) as [cephVersion decodeErr]. simpl.
  destruct decodeErr; [done|].
  destruct (ParseCephVersion cephVersion) as [parsedVersion parseErr]. simpl.
  by destruct parseErr.
Qed.

Lemma setCephVersion_failed c w e :
  failure w = Some e -> setCephVersion c w = (Return (Some e), afterCommand w).
Proof.
  intros Hf. unfold setCephVersion, bind at 1. by rewrite fetchCephVersion_eq, Hf.
Qed.

Lemma setCephVersion_passed c w :
  failure w = None ->
  versionLock w = false ->
  setCephVersion c w = (Return None, set_CephVersion (parsed w).1 (afterCommand w)).
Proof.
  intros Hf Hfree. unfold setCephVersion, bind at 1. rewrite fetchCephVersion_eq, Hf.
  unfold bind, Lock, Unlock, modify, ret, afterCommand. simpl. rewrite Hfree. simpl.
  f_equal. destruct w; simpl in *. by subst.
Qed.


(** C4. Every failing run of [setCephVersion], be it the command that
    is not transmitted, the reply that does not decode or the version
    string that does not parse, returns that stage's error, non-nil, and
    leaves the shared [CephVersion] (and its lock) as they were. *)
Theorem setCephVersion_failure_keeps_version c w e :
  (reply w).2 = Some e
  \/ ((reply w).2 = None /\ (decoded w).2 = Some e)
  \/ ((reply w).2 = None /\ (decoded w).2 = None /\ (parsed w).2 = Some e) ->
  exists w',
    setCephVersion c w = (Return (Some e), w')
    /\ CephVersion w' = CephVersion w
    /\ versionLock w' = versionLock w.
Proof.
  intros Hstage. exists (afterCommand w). split; [|done].
  apply setCephVersion_failed. unfold failure.
  destruct Hstage as [-> | [[-> ->] | (-> & -> & ->)]]; [|done..].
  by destruct (decoded w).2, (parsed w).2.
Qed.


Lemma forEach_callCollect ccs w :
  exists w',
    forEach ccs callCollect w = (Return tt, w')
    /\ invoked w' = invoked w ++ ccs
    /\ mu w' = mu w
    /\ logged w' = logged w
    /\ versionLock w' = versionLock w
    /\ CephVersion w' = CephVersion w.
Proof.
  revert w. induction ccs as [|cc ccs IH]; intros w.
  - exists w. rewrite app_nil_r. by repeat split.
  - simpl. unfold bind at 1, callCollect at 1, modify.
    destruct (subCollect cc (CephVersion w) (conn w)) as [conn' sent] eqn:Hsub.
    match goal with |- context [forEach ccs callCollect ?w1] =>
      destruct (IH w1) as (w' & -> & Hinv & Hmu & Hlog & Hvl & Hver) end.
    exists w'. split; [done|]. simpl in *.
    rewrite Hinv, Hmu, Hlog, Hvl, Hver, <- app_assoc. by repeat split.
Qed.

(** A pass whose refresh succeeds calls the whole active list, in
    order, and releases [mu]. *)
Lemma Collect_calls_active_list c w :
  failure w = None ->
  versionLock w = false ->
  mu w = false ->
  exists w',
    Collect c w = (Return tt, w')
    /\ invoked w' = invoked w ++ (getCollectors c).1
    /\ logged w' = logged w ++ (getCollectors c).2
    /\ mu w' = false.
Proof.
  intros Hf Hv Hmu. unfold Collect, bind at 1.
  rewrite (setCephVersion_passed c w Hf Hv).
  unfold bind at 1, Lock. simpl. rewrite Hmu.
  destruct (getCollectors c) as [ccs warnings]. unfold defer, bind at 1, logAll, modify.
  match goal with |- context [forEach ccs callCollect ?w1] =>
    destruct (forEach_callCollect ccs w1) as (w' & -> & Hinv & Hmu' & Hlog & _) end.
  simpl in *. unfold bind, Unlock, ret. rewrite Hmu'. simpl.
  eexists. split; [reflexivity|]. simpl. by rewrite Hinv, Hlog.
Qed.

(** C6. The active list depends on the exporter's mode alone: mode 1
    adds a foreground gateway collector to the six standard ones, mode 2 a
    background one, mode 0 none, and any other mode none and one warning;
    the six standard sub-collectors are kept in every case, and with any
    mode a pass whose refresh succeeds runs the whole list and returns. *)
Theorem getCollectors_by_mode c :
  (rgwMode c = 1 ->
   getCollectors c = (standard c ++ [NewRGWCollector (cluster c) (config c) false], []))
  /\ (rgwMode c = 2 ->
      getCollectors c = (standard c ++ [NewRGWCollector (cluster c) (config c) true], []))
  /\ (rgwMode c = 0 -> getCollectors c = (standard c, []))
  /\ (rgwMode c <> 0 -> rgwMode c <> 1 -> rgwMode c <> 2 ->
      getCollectors c = (standard c, [invalidMode (rgwMode c)])
      /\ level (invalidMode (rgwMode c)) = WarnLevel)
  /\ (forall w,
        failure w = None -> versionLock w = false -> mu w = false ->
        exists w',
          Collect c w = (Return tt, w')
          /\ invoked w' = invoked w ++ (getCollectors c).1
          /\ standard c `prefix_of` (getCollectors c).1).
Proof.
  split; [|split; [|split; [|split]]].
  - intros Hmode. unfold getCollectors. by rewrite Hmode.
  - intros Hmode. unfold getCollectors. by rewrite Hmode.
  - intros Hmode. unfold getCollectors. by rewrite Hmode.
  - intros Hn0 Hn1 Hn2. split; [|done].
    unfold getCollectors, RGWModeForeground, RGWModeBackground, RGWModeDisabled.
    destruct (Z.eqb_spec (rgwMode c) 1); [done|].
    destruct (Z.eqb_spec (rgwMode c) 2); [done|].
    by destruct (Z.eqb_spec (rgwMode c) 0).
  - intros w Hf Hv Hmu.
    destruct (Collect_calls_active_list c w Hf Hv Hmu) as (w' & Hrun & Hinv & _).
    exists w'. split; [done|]. split; [done|].
    destruct (getCollectors_standard c) as [gateway ->]. by apply prefix_app_r.
Qed.

End Calls.

(** The stale version survives each kind of failure: the command times
    out, the reply is not JSON, the version string is empty. *)
Lemma setCephVersion_failure_keeps_version_witness :
  (exists w',
      setCephVersion (Fake.exporter 0) (Fake.worldAt (Some (16, 2, 0)) [Fake.unreachable])
      = (Return (Some (errorString "rados: timed out")), w')
      /\ CephVersion w' = Some (16, 2, 0) /\ versionLock w' = false)
  /\ (exists w',
        setCephVersion (Fake.exporter 0)
          (Fake.worldAt (Some (16, 2, 0)) [Fake.ok (list_byte_of_string "<html>")])
        = (Return (Some (SyntaxError "invalid character")), w')
        /\ CephVersion w' = Some (16, 2, 0) /\ versionLock w' = false)
  /\ (exists w',
        setCephVersion (Fake.exporter 0)
          (Fake.worldAt (Some (16, 2, 0)) [Fake.ok (Fake.versionReply "")])
        = (Return (Some (errorString "invalid ceph version")), w')
        /\ CephVersion w' = Some (16, 2, 0) /\ versionLock w' = false).
Proof.
  split; [|split].
  - apply (setCephVersion_failure_keeps_version (Fake.exporter 0)
             (Fake.worldAt (Some (16, 2, 0)) [Fake.unreachable])).
    left. reflexivity.
  - apply (setCephVersion_failure_keeps_version (Fake.exporter 0)
             (Fake.worldAt (Some (16, 2, 0)) [Fake.ok (list_byte_of_string "<html>")])).
    right. left. split; reflexivity.
  - apply (setCephVersion_failure_keeps_version (Fake.exporter 0)
             (Fake.worldAt (Some (16, 2, 0)) [Fake.ok (Fake.versionReply "")])).
    right. right. repeat split; reflexivity.
Defined.


(** Mode 99 against a cluster that answers: the warning, and a pass over
    the six standard sub-collectors. *)
Lemma getCollectors_by_mode_witness :
  (getCollectors (Fake.exporter 99) = (standard (Fake.exporter 99), [invalidMode 99])
   /\ level (invalidMode 99) = WarnLevel)
  /\ (exists w',
        Collect (Fake.exporter 99) (Fake.world [Fake.ok (Fake.versionReply Fake.pacific)])
        = (Return tt, w')
        /\ invoked w' = [] ++ (getCollectors (Fake.exporter 99)).1
        /\ standard (Fake.exporter 99) `prefix_of` (getCollectors (Fake.exporter 99)).1).
Proof.
  split.
  - apply (proj1 (proj2 (proj2 (proj2 (getCollectors_by_mode (C := Fake.Script)
                                         (Fake.exporter 99)))))); discriminate.
  - apply (proj2 (proj2 (proj2 (proj2 (getCollectors_by_mode (Fake.exporter 99)))))
             (Fake.world [Fake.ok (Fake.versionReply Fake.pacific)])); reflexivity.
Defined.

(** ** Concurrent invocations *)

Section Interleaving.
Context {C : Type} `{!Conn C} `{!Imports C}.
Implicit Types (c : CephExporter) (w : World C) (m : Machine C) (t : Thread C) (p : PC C).

Lemma holders_insert (ts : list (Thread C)) i t t' :
  ts !! i = Some t ->
  (holders (<[i := t']> ts) + weight t = holders ts + weight t')%nat.
Proof.
  unfold holders. revert i. induction ts as [|t0 ts IH]; intros [|i] Hi; try done.
  - injection Hi as ->. simpl. fold (weight t) (weight t'). lia.
  - simpl in *. specialize (IH i Hi). fold (weight t0). lia.
Qed.



Lemma holders_start n : holders (replicate n (mkThread (C := C) AtSetCephVersion [])) = 0%nat.
Proof. unfold holders. induction n; [done|]. simpl. by rewrite IHn. Qed.

(** What a statement does to [mu]: it is taken by the lock statement,
    which needs it free and enters the guarded section, released by the
    deferred unlock, which leaves the section, and left alone by every
    other statement, which stays on its side of the section. *)
Lemma statement_mu c p w p' w' :
  statement c p w = (Return p', w') ->
  (mu w' = mu w /\ guarded p' = guarded p)
  \/ (mu w = false /\ mu w' = true /\ guarded p = false /\ guarded p' = true)
  \/ (guarded p = true /\ mu w' = false /\ guarded p' = false).
Proof.
  destruct p as [|v|v| | | |[|cc rest]|]; simpl.
  - unfold bind at 1. rewrite fetchCephVersion_eq.
    destruct (failure w); intros [= <- <-]; by left.
  - unfold bind, Lock, ret. destruct (versionLock w) eqn:Hv; [done|].
    intros [= <- <-]. by left.
  - intros [= <- <-]. by left.
  - unfold bind, Unlock, ret. destruct (versionLock w) eqn:Hv; [|done].
    intros [= <- <-]. by left.
  - unfold bind, Lock, ret. destruct (mu w) eqn:Hmu; [done|].
    intros [= <- <-]. right. by left.
  - destruct (getCollectors c) as [ccs warnings]. intros [= <- <-]. by left.
  - unfold bind, Unlock, ret. destruct (mu w) eqn:Hmu; [|done].
    intros [= <- <-]. right. by right.
  - unfold bind, callCollect, modify, ret.
    destruct (subCollect cc (CephVersion w) (conn w)). intros [= <- <-]. by left.
  - done.
Qed.

Lemma step_accounted c i m m' : step c i m = Some m' -> accounted m -> accounted m'.
Proof.
  unfold step, accounted. destruct (threads m !! i) as [t|] eqn:Hi; [|done].
  destruct (statement c (pc t) (set_metrics (ch t) (world m))) as [[p'| | |] w'] eqn:Hst;
    try done.
  intros [= <-] Hacc. simpl.
  pose proof (holders_insert (threads m) i t (mkThread p' (metrics w')) Hi) as Hins.
  unfold weight, holdsMu in Hins. simpl in Hins.
  apply statement_mu in Hst. simpl in Hst.
  destruct Hst as [[Hmu Hp'] | [(Hfree & Hmu & Hp & Hp') | (Hp & Hmu & Hp')]];
    rewrite Hmu; rewrite Hp' in Hins.
  - destruct (guarded (pc t)); lia.
  - rewrite Hfree in Hacc. rewrite Hp in Hins. lia.
  - rewrite Hp in Hins. destruct (mu (world m)); lia.
Qed.



(** ** A lone invocation

    Cut at its statements and run alone, an invocation does what [Collect]
    does in one piece. *)

Lemma set_metrics_same w : set_metrics (metrics w) w = w.
Proof. by destruct w. Qed.

Lemma step_lone c w p p' w' :
  statement c p w = (Return p', w') ->
  step c 0 (mkMachine w [mkThread p (metrics w)])
  = Some (mkMachine w' [mkThread p' (metrics w')]).
Proof. intros Hst. unfold step. simpl. by rewrite set_metrics_same, Hst. Qed.

Lemma exec_cons c i rest m :
  exec c (i :: rest) m = match step c i m with Some m' => exec c rest m' | None => None end.
Proof. reflexivity. Qed.

Lemma exec_lone c w p p' w' rest :
  statement c p w = (Return p', w') ->
  exec c (0%nat :: rest) (mkMachine w [mkThread p (metrics w)])
  = exec c rest (mkMachine w' [mkThread p' (metrics w')]).
Proof. intros Hst. by rewrite exec_cons, (step_lone c w p p' w'). Qed.

Lemma start_lone w :
  metrics w = [] -> start w 1 = mkMachine w [mkThread AtSetCephVersion (metrics w)].
Proof. intros Hch. unfold start. simpl. by rewrite Hch. Qed.

Lemma lone_pass c ccs w :
  mu w = true ->
  exists w1,
    forEach ccs callCollect w = (Return tt, w1)
    /\ exec c (replicate (S (length ccs)) 0%nat) (mkMachine w [mkThread (AtPass ccs) (metrics w)])
       = Some (mkMachine (set_mu false w1) [mkThread Finished (metrics w1)]).
Proof.
  revert w. induction ccs as [|cc ccs IH]; intros w Hmu.
  - exists w. split; [done|].
    change (replicate (S (length (@nil Collector))) 0%nat) with [0%nat].
    rewrite (exec_lone c w (AtPass []) Finished (set_mu false w)); [done|].
    simpl. unfold bind, Unlock, ret. by rewrite Hmu.
  - simpl forEach. unfold bind at 1, callCollect at 1, modify.
    destruct (subCollect cc (CephVersion w) (conn w)) as [conn' sent] eqn:Hsub.
    set (w0 := set_invoked (invoked w ++ [cc]) (set_metrics (metrics w ++ sent) (set_conn conn' w))).
    destruct (IH w0) as (w1 & Hrest & Hexec); [done|].
    exists w1. split; [done|].
    change (replicate (S (length (cc :: ccs))) 0%nat)
      with (0%nat :: replicate (S (length ccs)) 0%nat).
    rewrite (exec_lone c w (AtPass (cc :: ccs)) (AtPass ccs) w0); [done|].
    simpl. unfold bind, callCollect, modify, ret. by rewrite Hsub.
Qed.

(** When the refresh fails, the invocation is over after one statement. *)
Lemma lone_Collect_failed c w e :
  failure w = Some e ->
  metrics w = [] ->
  exists w',
    Collect c w = (Return tt, w')
    /\ exec c [0%nat] (start w 1) = Some (mkMachine w' [mkThread Finished (metrics w')]).
Proof.
  intros Hf Hch.
  exists (set_logged (logged w ++ [failedToSetCephVersion e]) (afterCommand w)). split.
  - unfold Collect, bind at 1. by rewrite (setCephVersion_failed c w e Hf).
  - rewrite (start_lone w Hch).
    erewrite exec_lone; [done|].
    simpl. unfold bind at 1. by rewrite fetchCephVersion_eq, Hf.
Qed.

(** When it succeeds, the invocation takes six statements to reach its
    pass, one per sub-collector, and one to unlock. *)
Lemma lone_Collect_passed c w :
  failure w = None ->
  versionLock w = false ->
  mu w = false ->
  metrics w = [] ->
  exists w',
    Collect c w = (Return tt, w')
    /\ exec c (replicate (6 + S (length (getCollectors c).1)) 0%nat) (start w 1)
       = Some (mkMachine w' [mkThread Finished (metrics w')]).
Proof.
  intros Hf Hv Hmu Hch.
  destruct (getCollectors c) as [ccs warnings] eqn:Hget. cbn [fst snd].
  set (w1 := afterCommand w).
  set (w2 := set_versionLock true w1).
  set (w3 := set_CephVersion (parsed w).1 w2).
  set (w4 := set_versionLock false w3).
  set (w5 := set_mu true w4).
  set (w6 := set_logged (logged w5 ++ warnings) w5).
  destruct (lone_pass c ccs w6) as (w7 & Hloop & Hpass); [done|].
  assert (mu w7 = true) as Hmu7.
  { destruct (forEach_callCollect ccs w6) as (w7' & Hloop' & _ & Hmu7 & _).
    rewrite Hloop in Hloop'. injection Hloop' as <-. by rewrite Hmu7. }
  exists (set_mu false w7). split.
  - unfold Collect, bind at 1. rewrite (setCephVersion_passed c w Hf Hv).
    assert (set_CephVersion (parsed w).1 (afterCommand w) = w4) as ->.
    { unfold w4, w3, w2, w1, afterCommand. destruct w; simpl in *. by subst. }
    unfold bind at 1, Lock. replace (mu w4) with false by (by rewrite <- Hmu).
    fold w5. unfold defer. rewrite Hget.
    assert (bind (logAll warnings) (fun _ => forEach ccs callCollect) w5 = (Return tt, w7))
      as ->.
    { unfold bind, logAll, modify. exact Hloop. }
    unfold bind, Unlock, ret. by rewrite Hmu7.
  - change (replicate (6 + S (length ccs)) 0%nat)
      with (0 :: 0 :: 0 :: 0 :: 0 :: 0 :: replicate (S (length ccs)) 0)%nat.
    rewrite (start_lone w Hch).
    rewrite (exec_lone c w AtSetCephVersion (AtVersionLock (parsed w).1) w1);
      [|simpl; unfold bind at 1; by rewrite fetchCephVersion_eq, Hf].
    rewrite (exec_lone c w1 (AtVersionLock (parsed w).1) (AtVersionStore (parsed w).1) w2);
      [|simpl; unfold bind, Lock, ret;
        by replace (versionLock w1) with false by (by rewrite <- Hv)].
    rewrite (exec_lone c w2 (AtVersionStore (parsed w).1) AtVersionUnlock w3); [|done].
    rewrite (exec_lone c w3 AtVersionUnlock AtMuLock w4); [|done].
    rewrite (exec_lone c w4 AtMuLock AtGetCollectors w5);
      [|simpl; unfold bind, Lock, ret;
        by replace (mu w4) with false by (by rewrite <- Hmu)].
    rewrite (exec_lone c w5 AtGetCollectors (AtPass ccs) w6);
      [|simpl; by rewrite Hget].
    by rewrite Hpass.
Qed.

End Interleaving.

Lemma midPass_state :
  exec (Fake.exporter 0) Fake.midPass (start Fake.upgraded 2)
  = Some (mkMachine
            (mkWorld [] (Some (17, 2, 0)) false true [] [] []
               [NewClusterUsageCollector "ceph"; NewPoolUsageCollector "ceph"])
            [Fake.inPass; Fake.waiting]).
Proof. reflexivity. Qed.



End ExporterFacts.

(** * Properties of the bucket-usage collector *)

Module CephFacts.
Import ceph.

Section Fanout.
Context `{!Imports}.
Implicit Types (b : BucketUsageCollector.t) (s : Shared) (g : Goroutine) (x : Sample).
Implicit Types (bt : bucket.t) (bts : list bucket.t).

Lemma samplesOf_wellLabelled b bts bt usage :
  declaresBucketLabel b ->
  bt ∈ bts ->
  Forall (fun x => wellLabelled bts (metricOf x)) (samplesOf b bt usage).
Proof.
  intros (Hsent & Hrecv & Hops & Hsucc) Hbt. apply Forall_forall. intros x Hx.
  apply list_elem_of_In in Hx. unfold samplesOf in Hx.
  apply in_flat_map in Hx as (su & _ & Hx). apply in_flat_map in Hx as (ca & _ & Hx).
  assert (forall d v, prometheus.variableLabels d = bucketLabel ->
            wellLabelled bts
              (metricOf (d, v, [bucket.Bucket bt; summary.User su; category.Category ca])))
    as Hone.
  { intros d v Hd. unfold wellLabelled, labelled, metricOf. simpl. rewrite Hd.
    split; [done|]. by exists bt, su, ca. }
  simpl in Hx. destruct Hx as [<- | [<- | [<- | [<- | []]]]]; by apply Hone.
Qed.

(** A well-labelled sample is built and sent; nothing panics. *)
Lemma send_wellLabelled bts x s :
  wellLabelled bts (metricOf x) ->
  send x s = mkShared (buf s) (err s) (latestErr s) (ch s ++ [metricOf x]) (logged s) (panicked s).
Proof.
  destruct x as [[d v] labels]. intros [Hlen _]. unfold metricOf in Hlen. simpl in Hlen.
  unfold send, prometheus.MustNewConstMetric, prometheus.NewConstMetric.
  by rewrite Hlen, Nat.eqb_refl.
Qed.

(** ** The statements of a goroutine and their uninterrupted runs *)

Lemma check_steps bt s :
  check bt s = match err s with
               | Some _ => storeLookup (logLookup bt s)
               | None => s
               end.
Proof. reflexivity. Qed.

Lemma decode_steps b bt s :
  decode b bt s
  = ((unmarshal b bt s).1,
     match (unmarshal b bt s).2 with
     | Some e => storeDecode e (logDecode bt e s)
     | None => s
     end).
Proof. unfold decode. by destruct (unmarshal b bt s) as [pending [e|]]. Qed.

Lemma panicked_lookup b bt s : panicked (lookup b bt s) = panicked s.
Proof. unfold lookup. by destruct (BucketUsageCollector.showBucketUsage b _ _ _ _). Qed.

Lemma panicked_check bt s : panicked (check bt s) = panicked s.
Proof. unfold check. by destruct (err s). Qed.

Lemma panicked_decode b bt s : panicked (decode b bt s).2 = panicked s.
Proof. unfold decode. by destruct (unmarshal b bt s) as [pending [e|]]. Qed.

(** ** [wg.Wait()] as a schedule

    Running the unfinished goroutines to their ends, as [drain] does, is
    one of the schedules. *)

Lemma run_app b schedule1 schedule2 st :
  run b (schedule1 ++ schedule2) st = run b schedule2 (run b schedule1 st).
Proof.
  revert st. induction schedule1 as [|i rest IH]; intros st; [done|].
  simpl. destruct (step b i st); apply IH.
Qed.

Lemma run_panicked b schedule s gs e :
  panicked s = Some e -> run b schedule (s, gs) = (s, gs).
Proof.
  intros Hp. induction schedule as [|i rest IH]; [done|].
  simpl. by rewrite Hp.
Qed.

Lemma run_cons b i rest st :
  run b (i :: rest) st = match step b i st with Some st' => run b rest st' | None => run b rest st end.
Proof. reflexivity. Qed.

Lemma run_step b i rest st st' :
  step b i st = Some st' -> run b (i :: rest) st = run b rest st'.
Proof. intros Hstep. by rewrite run_cons, Hstep. Qed.

(** One statement of goroutine [i], then more of them. *)
Lemma run_one b i s gs s' g1 (r : Shared) :
  (i < length gs)%nat ->
  step b i (s, gs) = Some (s', <[i := g1]> gs) ->
  (exists k g', run b (replicate k i) (s', <[i := g1]> gs) = (r, <[i := g']> (<[i := g1]> gs))) ->
  exists k g', run b (replicate k i) (s, gs) = (r, <[i := g']> gs).
Proof.
  intros Hlt Hstep (k & g' & Hrun). exists (S k), g'.
  change (replicate (S k) i) with (i :: replicate k i).
  by rewrite (run_step b i _ _ _ Hstep), Hrun, list_insert_insert_eq.
Qed.

Lemma sendAll_as_run b i bt pending s gs :
  panicked s = None ->
  gs !! i = Some (mkGoroutine bt (AtSend pending)) ->
  exists k g', run b (replicate k i) (s, gs) = (sendAll pending s, <[i := g']> gs).
Proof.
  revert s gs. induction pending as [|x pending IH]; intros s gs Hp Hi.
  - exists 1%nat, (mkGoroutine bt TaskDone). simpl. by rewrite Hp, Hi.
  - pose proof (lookup_lt_Some _ _ _ Hi) as Hlt.
    apply (run_one b i s gs (send x s) (mkGoroutine bt (AtSend pending))); [done| |].
    { unfold step. by rewrite Hp, Hi. }
    simpl sendAll. destruct (panicked (send x s)) as [e|] eqn:Hp'.
    + exists 0%nat, (mkGoroutine bt (AtSend pending)). simpl. by rewrite list_insert_insert_eq.
    + apply IH; [done|]. by apply list_lookup_insert_eq.
Qed.

Lemma finish_as_run b i g s gs :
  gs !! i = Some g ->
  exists k g', run b (replicate k i) (s, gs) = (finish b g s, <[i := g']> gs).
Proof.
  intros Hi. pose proof (lookup_lt_Some _ _ _ Hi) as Hlt.
  destruct g as [bt at0]. unfold finish. simpl.
  destruct (panicked s) as [e|] eqn:Hp.
  { exists 0%nat, (mkGoroutine bt at0). simpl. by rewrite list_insert_id. }
  assert (forall task s0 gs0 (r : Shared),
            panicked s0 = None ->
            gs0 !! i = Some (mkGoroutine bt task) ->
            forall s1 task1,
              step b i (s0, gs0) = Some (s1, <[i := mkGoroutine bt task1]> gs0) ->
              (forall gs1,
                  gs1 !! i = Some (mkGoroutine bt task1) ->
                  exists k g', run b (replicate k i) (s1, gs1) = (r, <[i := g']> gs1)) ->
              exists k g', run b (replicate k i) (s0, gs0) = (r, <[i := g']> gs0)) as Hone.
  { intros task s0 gs0 r Hp0 Hi0 s1 task1 Hstep Hnext.
    pose proof (lookup_lt_Some _ _ _ Hi0) as Hlt0.
    apply (run_one b i s0 gs0 s1 (mkGoroutine bt task1)); [done|done|].
    apply Hnext. by apply list_lookup_insert_eq. }
  assert (forall pending s0 gs0,
            panicked s0 = None -> gs0 !! i = Some (mkGoroutine bt (AtSend pending)) ->
            exists k g', run b (replicate k i) (s0, gs0) = (sendAll pending s0, <[i := g']> gs0))
    as Hsend by (intros; by eapply sendAll_as_run).
  assert (forall e0 pending s0 gs0,
            panicked s0 = None -> gs0 !! i = Some (mkGoroutine bt (AtStoreDecode e0 pending)) ->
            exists k g', run b (replicate k i) (s0, gs0)
                         = (sendAll pending (storeDecode e0 s0), <[i := g']> gs0)) as HstoreD.
  { intros e0 pending s0 gs0 Hp0 Hi0.
    apply (Hone _ s0 gs0 _ Hp0 Hi0 (storeDecode e0 s0) (AtSend pending)).
    - unfold step. by rewrite Hp0, Hi0.
    - intros gs1 Hi1. by apply Hsend. }
  assert (forall e0 pending s0 gs0,
            panicked s0 = None -> gs0 !! i = Some (mkGoroutine bt (AtLogDecode e0 pending)) ->
            exists k g', run b (replicate k i) (s0, gs0)
                         = (sendAll pending (storeDecode e0 (logDecode bt e0 s0)),
                            <[i := g']> gs0)) as HlogD.
  { intros e0 pending s0 gs0 Hp0 Hi0.
    apply (Hone _ s0 gs0 _ Hp0 Hi0 (logDecode bt e0 s0) (AtStoreDecode e0 pending)).
    - unfold step. by rewrite Hp0, Hi0.
    - intros gs1 Hi1. by apply HstoreD. }
  assert (forall s0 gs0,
            panicked s0 = None -> gs0 !! i = Some (mkGoroutine bt AtDecode) ->
            exists k g', run b (replicate k i) (s0, gs0)
                         = ((let '(pending, s') := decode b bt s0 in sendAll pending s'),
                            <[i := g']> gs0)) as Hdecode.
  { intros s0 gs0 Hp0 Hi0. rewrite decode_steps.
    apply (Hone _ s0 gs0 _ Hp0 Hi0 s0 (afterDecode (unmarshal b bt s0))).
    - unfold step. by rewrite Hp0, Hi0.
    - intros gs1 Hi1. unfold afterDecode in Hi1.
      destruct (unmarshal b bt s0) as [pending [e0|]]; simpl in *.
      + by apply HlogD.
      + by apply Hsend. }
  assert (forall s0 gs0,
            panicked s0 = None -> gs0 !! i = Some (mkGoroutine bt AtStoreLookup) ->
            exists k g', run b (replicate k i) (s0, gs0)
                         = ((let '(pending, s') := decode b bt (storeLookup s0) in
                             sendAll pending s'),
                            <[i := g']> gs0)) as HstoreL.
  { intros s0 gs0 Hp0 Hi0.
    apply (Hone _ s0 gs0 _ Hp0 Hi0 (storeLookup s0) AtDecode).
    - unfold step. by rewrite Hp0, Hi0.
    - intros gs1 Hi1. by apply Hdecode. }
  assert (forall s0 gs0,
            panicked s0 = None -> gs0 !! i = Some (mkGoroutine bt AtLogLookup) ->
            exists k g', run b (replicate k i) (s0, gs0)
                         = ((let '(pending, s') := decode b bt (storeLookup (logLookup bt s0)) in
                             sendAll pending s'),
                            <[i := g']> gs0)) as HlogL.
  { intros s0 gs0 Hp0 Hi0.
    apply (Hone _ s0 gs0 _ Hp0 Hi0 (logLookup bt s0) AtStoreLookup).
    - unfold step. by rewrite Hp0, Hi0.
    - intros gs1 Hi1. by apply HstoreL. }
  assert (forall s0 gs0,
            panicked s0 = None -> gs0 !! i = Some (mkGoroutine bt AtCheck) ->
            exists k g', run b (replicate k i) (s0, gs0)
                         = ((let '(pending, s') := decode b bt (check bt s0) in sendAll pending s'),
                            <[i := g']> gs0)) as Hcheck.
  { intros s0 gs0 Hp0 Hi0. rewrite check_steps.
    apply (Hone _ s0 gs0 _ Hp0 Hi0 s0 (afterCheck s0)).
    - unfold step. by rewrite Hp0, Hi0.
    - intros gs1 Hi1. unfold afterCheck in Hi1. destruct (err s0) as [e0|].
      + by apply HlogL.
      + by apply Hdecode. }
  destruct at0 as [| | | | |e0 pending|e0 pending|pending|].
  - apply (Hone _ s gs _ Hp Hi (lookup b bt s) AtCheck).
    + unfold step. by rewrite Hp, Hi.
    + intros gs1 Hi1. apply Hcheck; [|done]. by rewrite panicked_lookup.
  - by apply Hcheck.
  - by apply HlogL.
  - by apply HstoreL.
  - by apply Hdecode.
  - by apply HlogD.
  - by apply HstoreD.
  - by apply Hsend.
  - exists 0%nat, (mkGoroutine bt TaskDone). simpl. by rewrite list_insert_id.
Qed.

Lemma drain_suffix_as_run b s done todo :
  exists schedule gs',
    run b schedule (s, done ++ todo) = (foldl (fun s g => finish b g s) s todo, gs').
Proof.
  revert s done. induction todo as [|g todo IH]; intros s done.
  - by exists [], (done ++ []).
  - destruct (finish_as_run b (length done) g s (done ++ g :: todo)) as (k & g' & Hrun).
    { by rewrite list_lookup_middle. }
    rewrite insert_app_r_alt, Nat.sub_diag in Hrun by done. simpl in Hrun.
    destruct (IH (finish b g s) (done ++ [g'])) as (schedule & gs' & Hrest).
    rewrite <- app_assoc in Hrest. simpl in Hrest.
    exists (replicate k (length done) ++ schedule), gs'.
    by rewrite run_app, Hrun.
Qed.

(** [collect] with a schedule is [collect] with a longer schedule that
    leaves nothing to [wg.Wait()]. *)
Lemma drain_as_run b schedule st :
  exists rest gs', run b (schedule ++ rest) st = (drain b (run b schedule st), gs').
Proof.
  destruct (run b schedule st) as [s gs] eqn:Hrun.
  destruct (drain_suffix_as_run b s [] gs) as (rest & gs' & Hrest).
  exists rest, gs'. by rewrite run_app, Hrun.
Qed.

(** What holds after every schedule holds after [wg.Wait()]. *)
Lemma drain_invariant b (I : Shared * list Goroutine -> Prop) (J : Shared -> Prop) st :
  (forall schedule, I (run b schedule st)) ->
  (forall s gs, I (s, gs) -> J s) ->
  J (drain b st).
Proof.
  intros Hrun HJ. destruct (drain_as_run b [] st) as (rest & gs' & Heq). simpl in Heq.
  apply (HJ _ gs'). rewrite <- Heq. apply Hrun.
Qed.

(** ** No panic, and the labels *)

Lemma sound_send bts x s gs i g :
  sound bts (s, gs) ->
  wellLabelled bts (metricOf x) ->
  soundTask bts g ->
  sound bts (send x s, <[i := g]> gs).
Proof.
  intros (Hp & Hch & Hgs) Hx Hg. rewrite (send_wellLabelled bts) by done.
  split; [done|]. split; simpl.
  - apply Forall_app. split; [done|]. by apply Forall_singleton.
  - by apply Forall_insert.
Qed.

Lemma unmarshal_wellLabelled b bts bt s :
  declaresBucketLabel b ->
  bt ∈ bts ->
  Forall (fun x => wellLabelled bts (metricOf x)) (unmarshal b bt s).1.
Proof.
  intros Hb Hbt. unfold unmarshal.
  destruct (Unmarshal decodeUsage (mkBucketUsage []) (buf s)) as [usage e]. simpl.
  by apply samplesOf_wellLabelled.
Qed.

Lemma step_sound b bts i st st' :
  declaresBucketLabel b ->
  step b i st = Some st' ->
  sound bts st ->
  sound bts st'.
Proof.
  intros Hb. destruct st as [s gs]. unfold step.
  destruct (panicked s) eqn:Hp; [done|].
  destruct (gs !! i) as [g|] eqn:Hi; [|done].
  intros Hstep Hsound. pose proof Hsound as (_ & Hch & Hgs).
  assert (soundTask bts g) as [Hbt Hpending].
  { eapply Forall_lookup_1; [exact Hgs|exact Hi]. }
  assert (forall s' task,
            panicked s' = None -> ch s' = ch s ->
            Forall (fun x => wellLabelled bts (metricOf x)) (pendingOf task) ->
            sound bts (s', <[i := mkGoroutine (bucket g) task]> gs)) as Hkeep.
  { intros s' task Hp' Hch' Htask. split; [done|]. split; simpl.
    - by rewrite Hch'.
    - apply Forall_insert; [done|]. by split. }
  destruct (at_ g) as [| | | | |e pending|e pending|[|x pending]|] eqn:Hat;
    simpl in Hpending; try (injection Hstep as <-).
  - apply Hkeep; [by rewrite panicked_lookup| |done].
    unfold lookup. by destruct (BucketUsageCollector.showBucketUsage b _ _ _ _).
  - apply Hkeep; [done..|]. unfold afterCheck. by destruct (err s).
  - by apply Hkeep.
  - by apply Hkeep.
  - apply Hkeep; [done..|]. pose proof (unmarshal_wellLabelled b bts (bucket g) s Hb Hbt) as Hall.
    unfold afterDecode. by destruct (unmarshal b (bucket g) s) as [pending [e|]].
  - by apply Hkeep.
  - by apply Hkeep.
  - by apply Hkeep.
  - apply Forall_cons in Hpending as [Hx Hrest].
    apply sound_send; [done..|]. by split.
  - done.
Qed.

Lemma run_sound b bts schedule st :
  declaresBucketLabel b ->
  sound bts st ->
  sound bts (run b schedule st).
Proof.
  intros Hb. revert st. induction schedule as [|i rest IH]; intros st Hsound; [done|].
  simpl. destruct (step b i st) as [st'|] eqn:Hstep; [|by apply IH].
  apply IH. by eapply step_sound.
Qed.

Lemma sendAll_wellLabelled bts pending s :
  panicked s = None ->
  Forall (fun x => wellLabelled bts (metricOf x)) pending ->
  sendAll pending s
  = mkShared (buf s) (err s) (latestErr s) (ch s ++ map metricOf pending) (logged s) None.
Proof.
  revert s. induction pending as [|x pending IH]; intros s Hp Hall.
  - simpl. rewrite app_nil_r. destruct s. simpl in Hp. by subst.
  - apply Forall_cons in Hall as [Hx Hrest]. simpl.
    rewrite (send_wellLabelled bts) by done. simpl. rewrite Hp.
    rewrite IH by done. simpl. by rewrite <- app_assoc.
Qed.

Lemma drain_sound b bts st :
  declaresBucketLabel b ->
  sound bts st ->
  soundShared bts (drain b st).
Proof.
  intros Hb Hsound. apply (drain_invariant b (sound bts)).
  - intros schedule. by apply run_sound.
  - intros s gs (Hp & Hch & _). by split.
Qed.

Lemma spawn_sound bts out :
  sound bts (mkShared out None None [] [] None, spawn bts).
Proof.
  split; [done|]. split; [done|]. simpl. unfold spawn. apply Forall_fmap, Forall_forall.
  intros bt Hbt. by split.
Qed.

Lemma NewBucketUsageCollector_declares exporter :
  declaresBucketLabel (NewBucketUsageCollector exporter).
Proof. by repeat split. Qed.

(** With descriptors that declare [bucketLabel], [collect] never panics
    and everything it sends is well labelled, whatever the schedule. *)
Lemma collect_sound b schedule :
  declaresBucketLabel b ->
  soundShared (enumerated b) (collect b schedule).2.
Proof.
  intros Hb. unfold collect, enumerated.
  destruct (listBucketStats _ _) as [out e]. simpl. destruct e as [e|]; [by split|].
  destruct (Unmarshal decodeBuckets [] out) as [buckets e]. simpl.
  destruct e as [e|]; [by split|]. simpl.
  apply drain_sound; [done|]. apply run_sound; [done|]. apply spawn_sound.
Qed.

(** ** The [listBucketStats] field *)

Lemma step_same b1 b2 i st :
  sameButListBucketStats b1 b2 -> step b1 i st = step b2 i st.
Proof.
  intros (Hc & Hu & Hs & Hr & Ho & Hsu & Hshow). destruct st as [s gs]. unfold step.
  destruct (panicked s); [done|]. destruct (gs !! i) as [g|]; [|done].
  destruct (at_ g) as [| | | | |e pending|e pending|[|x pending]|]; try done.
  - unfold lookup. by rewrite Hc, Hu, Hshow.
  - unfold unmarshal, samplesOf. by rewrite Hs, Hr, Ho, Hsu.
Qed.

Lemma run_same b1 b2 schedule st :
  sameButListBucketStats b1 b2 -> run b1 schedule st = run b2 schedule st.
Proof.
  intros Hsame. revert st. induction schedule as [|i rest IH]; intros st; [done|].
  simpl. rewrite (step_same b1 b2) by done. destruct (step b2 i st); apply IH.
Qed.

Lemma finish_same b1 b2 g s :
  sameButListBucketStats b1 b2 -> finish b1 g s = finish b2 g s.
Proof.
  intros (Hc & Hu & Hs & Hr & Ho & Hsu & Hshow). unfold finish, decode, unmarshal, lookup, samplesOf.
  by rewrite Hc, Hu, Hs, Hr, Ho, Hsu, Hshow.
Qed.

Lemma drain_same b1 b2 st :
  sameButListBucketStats b1 b2 -> drain b1 st = drain b2 st.
Proof.
  intros Hsame. destruct st as [s gs]. unfold drain. simpl. revert s.
  induction gs as [|g gs IH]; intros s; [done|].
  simpl. rewrite (finish_same b1 b2) by done. apply IH.
Qed.

(** C10. Two collectors that differ only in their [listBucketStats] field
    behave alike: on the same gateway and under the same schedule, [collect]
    returns the same error and leaves the same metrics and log entries, and
    so does [Collect].  Enumeration calls the package's [listBucketStats]; the
    field is never read. *)
Theorem collect_ignores_listBucketStats_field
    (b1 b2 : BucketUsageCollector.t) (schedule : list nat) :
  sameButListBucketStats b1 b2 ->
  collect b1 schedule = collect b2 schedule
  /\ Collect b1 schedule = Collect b2 schedule.
Proof.
  intros Hsame.
  assert (collect b1 schedule = collect b2 schedule) as Heq.
  { pose proof Hsame as (Hc & Hu & _). unfold collect. rewrite Hc, Hu.
    destruct (listBucketStats _ _) as [out e]. destruct e as [e|]; [done|].
    destruct (Unmarshal decodeBuckets [] out) as [buckets e]. destruct e as [e|]; [done|].
    by rewrite (run_same b1 b2), (drain_same b1 b2). }
  split; [done|]. unfold Collect. by rewrite Heq.
Qed.

(** ** The fan-out, one goroutine at a time *)

(** A goroutine that runs from line 81 to its end with nothing in between
    sends the samples of its own reply and records its own errors. *)
Lemma finish_alone b bts bt s :
  declaresBucketLabel b ->
  bt ∈ bts ->
  panicked s = None ->
  let s' := finish b (mkGoroutine bt AtLookup) s in
  ch s' = ch s ++ map metricOf (samplesOf b bt (ownUsage b bt).1)
  /\ panicked s' = None
  /\ (latestErr s' = None <-> latestErr s = None /\ lookupFails b bt = false).
Proof.
  intros Hb Hbt Hp. unfold finish. rewrite Hp. simpl.
  unfold decode, unmarshal, check, storeLookup, logLookup, lookup, lookupFails, ownUsage, ownReply.
  destruct (BucketUsageCollector.showBucketUsage b _ _ _ _) as [out e]. simpl.
  assert (Forall (fun x => wellLabelled bts (metricOf x))
            (samplesOf b bt (Unmarshal decodeUsage (mkBucketUsage []) out).1)) as Hall
    by by apply samplesOf_wellLabelled.
  destruct e as [e|]; simpl;
    destruct (Unmarshal decodeUsage (mkBucketUsage []) out) as [usage [e'|]]; simpl in *;
    rewrite (sendAll_wellLabelled bts) by done; simpl;
    (split; [done|]); (split; [done|]);
    first [tauto | split; [done | by intros [_ ?]]].
Qed.

Lemma drain_in_turn b bts todo s :
  declaresBucketLabel b ->
  Forall (fun bt => bt ∈ bts) todo ->
  panicked s = None ->
  let s' := drain b (s, spawn todo) in
  ch s' = ch s ++ map metricOf (flat_map (fun bt => samplesOf b bt (ownUsage b bt).1) todo)
  /\ panicked s' = None
  /\ (latestErr s' = None <-> latestErr s = None /\ Forall (fun bt => lookupFails b bt = false) todo).
Proof.
  intros Hb. unfold drain. simpl. revert s.
  induction todo as [|bt todo IH]; intros s Hsub Hp.
  - simpl. rewrite app_nil_r. split; [done|]. split; [done|]. split; [done|tauto].
  - simpl. apply Forall_cons in Hsub as [Hbt Hsub].
    destruct (finish_alone b bts bt s Hb) as (Hch & Hp' & Herr); [done..|].
    destruct (IH (finish b (mkGoroutine bt AtLookup) s)) as (Hch' & Hp'' & Herr');
      [done..|].
    rewrite Hch', Hch, map_app, app_assoc. split; [done|]. split; [done|].
    rewrite Herr', Herr, Forall_cons. tauto.
Qed.

(** Without interleaving (the empty schedule: every goroutine runs to its
    end in the order of the loop), [collect] sends, for every enumerated
    bucket, the samples of that bucket's own reply, and returns an error
    exactly when some lookup failed. *)
Lemma collect_in_turn b :
  declaresBucketLabel b ->
  (listBucketStats (BucketUsageCollector.config b) (BucketUsageCollector.user b)).2 = None ->
  (Unmarshal decodeBuckets []
     (listBucketStats (BucketUsageCollector.config b) (BucketUsageCollector.user b)).1).2 = None ->
  ch (collect b []).2
  = map metricOf (flat_map (fun bt => samplesOf b bt (ownUsage b bt).1) (enumerated b))
  /\ ((collect b []).1 <> None <-> Exists (fun bt => lookupFails b bt = true) (enumerated b)).
Proof.
  intros Hb Hlist Hdec. unfold collect, enumerated in *.
  destruct (listBucketStats _ _) as [out e]. simpl in *. subst e.
  destruct (Unmarshal decodeBuckets [] out) as [buckets e]. simpl in *. subst e. simpl.
  destruct (drain_in_turn b buckets buckets (mkShared out None None [] [] None) Hb)
    as (Hch & _ & Herr); [by apply Forall_forall|done|].
  split; [done|]. simpl in Herr.
  rewrite Exists_exists. split.
  - intros Hsome. destruct (decide (Forall (fun bt => lookupFails b bt = false) buckets))
      as [Hall|Hnot].
    + destruct Hsome. by apply Herr.
    + apply (not_Forall_Exists _) in Hnot.
      apply Exists_exists in Hnot as (bt & Hin & Hbt). exists bt. split; [done|].
      simpl in Hbt. destruct (lookupFails b bt); [done|by destruct Hbt].
  - intros (bt & Hin & Hbt) Hnone. apply Herr in Hnone as [_ Hall].
    pose proof (proj1 (Forall_forall _ _) Hall bt Hin). congruence.
Qed.

(** ** Where the samples and the errors come from, under any schedule *)

Lemma lookup_ownReply b bt s :
  lookup b bt s
  = mkShared (ownReply b bt).1 (ownReply b bt).2 (latestErr s) (ch s) (logged s) (panicked s).
Proof.
  unfold lookup, ownReply. by destruct (BucketUsageCollector.showBucketUsage b _ _ _ _).
Qed.

Lemma buf_send x s : buf (send x s) = buf s.
Proof.
  destruct x as [[d v] labels]. unfold send.
  by destruct (prometheus.MustNewConstMetric d prometheus.GaugeValue v labels).
Qed.

Lemma logged_send x s : logged (send x s) = logged s.
Proof.
  destruct x as [[d v] labels]. unfold send.
  by destruct (prometheus.MustNewConstMetric d prometheus.GaugeValue v labels).
Qed.

Lemma looked_same b bts s s' : buf s' = buf s -> looked b bts s -> looked b bts s'.
Proof. intros Hbuf (bt & Hbt & Hs). exists bt. by rewrite Hbuf. Qed.

(** Once [buf] holds a reply, line 87 decodes the reply of one of the
    buckets. *)
Lemma unmarshal_looked b bts bt s :
  looked b bts s ->
  exists bt', bt' ∈ bts
              /\ unmarshal b bt s = (samplesOf b bt (ownUsage b bt').1, (ownUsage b bt').2).
Proof.
  intros (bt' & Hbt' & Hbuf). exists bt'. split; [done|].
  unfold unmarshal, ownUsage. rewrite Hbuf.
  by destruct (Unmarshal decodeUsage (mkBucketUsage []) (ownReply b bt').1).
Qed.

Lemma lookupError_none b bts e :
  Forall (fun bt => lookupFails b bt = false) bts -> lookupError b bts e -> e = None.
Proof.
  intros Hquiet [->|(bt & Hbt & Hor)]; [done|].
  pose proof (proj1 (Forall_forall _ _) Hquiet bt Hbt) as Hok.
  unfold lookupFails in Hok. apply bool_decide_eq_false in Hok.
  destruct e as [e|]; [|done]. destruct Hok. destruct Hor as [Hc|Hd]; [left|right]; congruence.
Qed.

Lemma tracedShared_send b bts x s :
  crossed b bts x -> tracedShared b bts s -> tracedShared b bts (send x s).
Proof.
  intros Hx (Hch & Herr & Hlatest). destruct x as [[d v] labels].
  unfold send, prometheus.MustNewConstMetric, prometheus.NewConstMetric.
  destruct (Nat.eqb _ _); [|done].
  split; [|done]. simpl. apply Forall_app. split; [done|]. apply Forall_singleton.
  by exists (d, v, labels).
Qed.

Lemma step_traced b bts i st st' :
  step b i st = Some st' -> traced b bts st -> traced b bts st'.
Proof.
  destruct st as [s gs]. unfold step.
  destruct (panicked s); [done|]. destruct (gs !! i) as [g|] eqn:Hi; [|done].
  intros Hstep (Hs & Hlooked & Hgs & Hcalm). simpl in Hs, Hlooked, Hgs, Hcalm.
  assert (tracedTask b bts g) as (Hbt & Hpending & Hcarried).
  { eapply Forall_lookup_1; [exact Hgs|exact Hi]. }
  assert (at_ g <> AtLookup -> looked b bts s) as Hpast.
  { intros Hat. destruct Hlooked as [Hl|Hall]; [done|].
    destruct Hat. by apply (Forall_lookup_1 _ _ _ _ Hall Hi). }
  assert (errorFree (at_ g) = false ->
          Forall (fun bt => lookupFails b bt = false) bts -> False) as Hnoisy.
  { intros Hat Hquiet. destruct (Hcalm Hquiet) as [_ Hfree]. simpl in Hfree.
    pose proof (Forall_lookup_1 _ _ _ _ Hfree Hi) as Hg. simpl in Hg. congruence. }
  assert (forall s' task,
            tracedShared b bts s' ->
            looked b bts s' ->
            Forall (crossed b bts) (pendingOf task) ->
            lookupError b bts (carried task) ->
            (Forall (fun bt => lookupFails b bt = false) bts ->
             logged s' = logged s /\ errorFree task = true) ->
            traced b bts (s', <[i := mkGoroutine (bucket g) task]> gs)) as Hkeep.
  { intros s' task Hs' Hl' Htask Hcar Hq. split; [done|]. split; [by left|]. split.
    - apply Forall_insert; [done|]. by split.
    - intros Hquiet. destruct (Hcalm Hquiet) as [Hnil Hfree]. simpl in Hnil, Hfree.
      destruct (Hq Hquiet) as [Hlog Hok]. split; simpl.
      + by rewrite Hlog.
      + by apply Forall_insert. }
  pose proof Hs as (Hch & Herr & Hlatest).
  destruct (at_ g) as [| | | | |e pending|e pending|[|x pending]|] eqn:Hat;
    simpl in Hpending, Hcarried; try (injection Hstep as <-).
  - rewrite lookup_ownReply. apply Hkeep.
    + split; [done|]. split; [|done]. simpl. right. exists (bucket g). by split; [|left].
    + by exists (bucket g).
    + by constructor.
    + by left.
    + intros _. by split.
  - specialize (Hpast ltac:(done)). apply Hkeep.
    + done.
    + done.
    + unfold afterCheck. destruct (err s); by constructor.
    + unfold afterCheck. destruct (err s); by left.
    + intros Hquiet. split; [done|]. unfold afterCheck.
      by rewrite (lookupError_none b bts (err s) Hquiet Herr).
  - specialize (Hpast ltac:(done)). apply Hkeep.
    + by split; [|split].
    + by apply (looked_same b bts s).
    + by constructor.
    + by left.
    + intros Hquiet. by destruct (Hnoisy eq_refl Hquiet).
  - specialize (Hpast ltac:(done)). apply Hkeep.
    + by split; [|split].
    + by apply (looked_same b bts s).
    + by constructor.
    + by left.
    + intros Hquiet. by destruct (Hnoisy eq_refl Hquiet).
  - specialize (Hpast ltac:(done)).
    destruct (unmarshal_looked b bts (bucket g) s Hpast) as (bt' & Hbt' & ->).
    unfold afterDecode. simpl.
    assert (Forall (crossed b bts) (samplesOf b (bucket g) (ownUsage b bt').1)) as Hall.
    { apply Forall_forall. intros x Hx. by exists (bucket g), bt'. }
    destruct ((ownUsage b bt').2) as [e|] eqn:Hown.
    + assert (lookupError b bts (Some e)) as He.
      { right. exists bt'. split; [done|]. by right. }
      apply Hkeep.
      * done.
      * done.
      * done.
      * done.
      * intros Hquiet. by pose proof (lookupError_none b bts (Some e) Hquiet He).
    + apply Hkeep.
      * done.
      * done.
      * done.
      * by left.
      * intros _. by split.
  - specialize (Hpast ltac:(done)). apply Hkeep.
    + by split; [|split].
    + by apply (looked_same b bts s).
    + done.
    + done.
    + intros Hquiet. by destruct (Hnoisy eq_refl Hquiet).
  - specialize (Hpast ltac:(done)). apply Hkeep.
    + by split; [|split].
    + by apply (looked_same b bts s).
    + done.
    + by left.
    + intros Hquiet. by destruct (Hnoisy eq_refl Hquiet).
  - specialize (Hpast ltac:(done)). apply Hkeep.
    + done.
    + done.
    + by constructor.
    + by left.
    + intros _. by split.
  - specialize (Hpast ltac:(done)). apply Forall_cons in Hpending as [Hx Hrest].
    apply Hkeep.
    + by apply tracedShared_send.
    + apply (looked_same b bts s); [apply buf_send|done].
    + done.
    + by left.
    + intros _. split; [apply logged_send|done].
  - done.
Qed.

Lemma run_traced b bts schedule st : traced b bts st -> traced b bts (run b schedule st).
Proof.
  revert st. induction schedule as [|i rest IH]; intros st Htraced; [done|].
  simpl. destruct (step b i st) as [st'|] eqn:Hstep; [|by apply IH].
  apply IH. by eapply step_traced.
Qed.

Lemma spawn_traced b bts out :
  traced b bts (mkShared out None None [] [] None, spawn bts).
Proof.
  split; [by repeat split; try left|]. simpl. split; [|split].
  - right. unfold spawn. by apply Forall_fmap, Forall_forall.
  - unfold spawn. apply Forall_fmap, Forall_forall. intros bt Hbt.
    split; [done|]. split; [done|]. by left.
  - intros _. split; [done|]. simpl. unfold spawn. by apply Forall_fmap, Forall_forall.
Qed.

(** What [collect] does, by the outcome of the enumeration. *)
Lemma collect_enumeration_failed b schedule e :
  enumerationError b = Some e ->
  collect b schedule
  = (Some e,
     mkShared
       (listBucketStats (BucketUsageCollector.config b) (BucketUsageCollector.user b)).1
       (listBucketStats (BucketUsageCollector.config b) (BucketUsageCollector.user b)).2
       None []
       (match (listBucketStats (BucketUsageCollector.config b)
                 (BucketUsageCollector.user b)).2 with
        | Some _ => [errorListing b e]
        | None => []
        end)
       None).
Proof.
  unfold enumerationError, collect.
  destruct (listBucketStats _ _) as [out e0]. simpl. destruct e0 as [e0|].
  - by intros [= ->].
  - destruct (Unmarshal decodeBuckets [] out) as [buckets e1]. simpl. by intros ->.
Qed.

(** When the enumeration succeeds: what [collect] returns is [latestErr];
    everything can be traced to the lookups; and as long as no lookup fails
    nothing is logged. *)
Lemma collect_traced b schedule :
  enumerationError b = None ->
  (collect b schedule).1 = latestErr (collect b schedule).2
  /\ tracedShared b (enumerated b) (collect b schedule).2
  /\ (Forall (fun bt => lookupFails b bt = false) (enumerated b) ->
      logged (collect b schedule).2 = []).
Proof.
  unfold enumerationError, collect, enumerated.
  destruct (listBucketStats _ _) as [out e0]. simpl. destruct e0 as [e0|]; [done|].
  destruct (Unmarshal decodeBuckets [] out) as [buckets e1]. simpl. intros ->. simpl.
  split; [done|].
  apply (drain_invariant b (traced b buckets)
           (fun s => tracedShared b buckets s
                     /\ (Forall (fun bt => lookupFails b bt = false) buckets -> logged s = []))).
  - intros rest. rewrite <- run_app. apply run_traced, spawn_traced.
  - intros s gs (Hs & _ & _ & Hcalm). split; [done|]. intros Hquiet. by apply Hcalm.
Qed.

(** C8. Every metric that [collect] sends, under any schedule of its
    goroutines, carries exactly as many label values as its descriptor
    declares label names, and they are, in the declared order [bucket],
    [user], [category], the three values of lines 93-96: the name of an
    enumerated bucket, the user of a summary of the usage that line 87
    decoded and a category of that summary (the usage is decoded from the
    reply to the lookup of an enumerated bucket, which the shared [buf] can
    make another bucket than the one named); and no [MustNewConstMetric] call
    panics. *)
Theorem collect_labels_match_descriptor (exporter : Exporter) (schedule : list nat)
    (m : prometheus.Metric) :
  let b := NewBucketUsageCollector exporter in
  m ∈ ch (collect b schedule).2 ->
  panicked (collect b schedule).2 = None
  /\ prometheus.variableLabels (prometheus.desc m) = ["bucket"; "user"; "category"]
  /\ length (prometheus.labelValues m) = length (prometheus.variableLabels (prometheus.desc m))
  /\ exists bt bt' su ca,
       bt ∈ enumerated b
       /\ bt' ∈ enumerated b
       /\ su ∈ Summary (ownUsage b bt').1
       /\ ca ∈ summary.Categories su
       /\ labelled m = [("bucket", bucket.Bucket bt);
                        ("user", summary.User su);
                        ("category", category.Category ca)].
Proof.
  intros b Hm.
  destruct (collect_sound b schedule (NewBucketUsageCollector_declares exporter)) as [Hp Hch].
  split; [done|].
  pose proof (proj1 (Forall_forall _ _) Hch m Hm) as [Hlen (bt0 & su0 & ca0 & _ & Hlab)].
  assert (prometheus.variableLabels (prometheus.desc m) = ["bucket"; "user"; "category"])
    as Hnames.
  { unfold labelled in Hlab.
    destruct (prometheus.variableLabels (prometheus.desc m)) as [|n1 [|n2 [|n3 [|n4 ns]]]];
      destruct (prometheus.labelValues m) as [|v1 [|v2 [|v3 [|v4 vs]]]];
      simpl in Hlab, Hlen; try discriminate.
    by injection Hlab as -> _ -> _ -> _. }
  split; [done|]. split; [done|]. clear bt0 su0 ca0 Hlab.
  destruct (enumerationError b) as [e|] eqn:Henum.
  { rewrite (collect_enumeration_failed b schedule e Henum) in Hm. simpl in Hm.
    by apply elem_of_nil in Hm. }
  destruct (collect_traced b schedule Henum) as (_ & (Htraced & _) & _).
  destruct (proj1 (Forall_forall _ _) Htraced m Hm) as (x & (bt & bt' & Hbt & Hbt' & Hx) & ->).
  apply list_elem_of_In in Hx. unfold samplesOf in Hx.
  apply in_flat_map in Hx as (su & Hsu & Hx). apply in_flat_map in Hx as (ca & Hca & Hx).
  apply list_elem_of_In in Hsu, Hca.
  exists bt, bt', su, ca. split; [done|]. split; [done|]. split; [done|]. split; [done|].
  unfold labelled. rewrite Hnames.
  simpl in Hx. by destruct Hx as [<- | [<- | [<- | [<- | []]]]].
Qed.

End Fanout.

Lemma collect_labels_match_descriptor_witness :
  panicked (collect Fake.collector []).2 = None
  /\ prometheus.variableLabels (prometheus.desc Fake.firstSample) = ["bucket"; "user"; "category"]
  /\ length (prometheus.labelValues Fake.firstSample)
     = length (prometheus.variableLabels (prometheus.desc Fake.firstSample))
  /\ exists bt bt' su ca,
       bt ∈ enumerated Fake.collector
       /\ bt' ∈ enumerated Fake.collector
       /\ su ∈ Summary (ownUsage Fake.collector bt').1
       /\ ca ∈ summary.Categories su
       /\ labelled Fake.firstSample = [("bucket", bucket.Bucket bt);
                                       ("user", summary.User su);
                                       ("category", category.Category ca)].
Proof.
  apply (collect_labels_match_descriptor
           (mkExporter "ceph" "/etc/ceph/ceph.conf" "admin") [] Fake.firstSample).
  apply list_elem_of_In. vm_compute. left. reflexivity.
Defined.

Lemma collect_ignores_listBucketStats_field_witness :
  collect Fake.collector Fake.overtaken = collect Fake.stubbed Fake.overtaken
  /\ Collect Fake.collector Fake.overtaken = Collect Fake.stubbed Fake.overtaken.
Proof.
  apply (collect_ignores_listBucketStats_field Fake.collector Fake.stubbed Fake.overtaken).
  repeat split; reflexivity.
Defined.

(** ** The shared [buf] and [err] *)

(** The scenario of three buckets: the gateway lists [A], [B], [C]; the
    lookup fails for [B] and gives one [put_obj] category (100 bytes sent, 50
    received, 5 operations, 5 successful) for [A] and for [C]. *)
Lemma scenario :
  enumerated Fake.collector = [Fake.A; Fake.B; Fake.C]
  /\ map (lookupFails Fake.collector) [Fake.A; Fake.B; Fake.C] = [false; true; false]
  /\ (ownUsage Fake.collector Fake.A).1 = Fake.putObj
  /\ (ownUsage Fake.collector Fake.C).1 = Fake.putObj.
Proof. by vm_compute. Qed.

(** One goroutine at a time, the scenario gives what is expected: two sets
    of four samples, for [A] and for [C], and an error. *)
Lemma collect_scenario_in_turn :
  Fake.labelsSent (collect Fake.collector [])
  = replicate 4 ["A"; "u"; "put_obj"] ++ replicate 4 ["C"; "u"; "put_obj"]
  /\ Fake.valuesSent (collect Fake.collector []) = [100; 50; 5; 5; 100; 50; 5; 5]
  /\ (collect Fake.collector []).1 = Some (SyntaxError "unexpected end of JSON input")
  /\ Fake.asExpected (collect Fake.collector []).
Proof.
  split; [by vm_compute|]. split; [by vm_compute|]. split; [by vm_compute|].
  split; [by vm_compute|]. split; [by vm_compute|].
  assert (Fake.labelsSent (collect Fake.collector [])
          = replicate 4 ["A"; "u"; "put_obj"] ++ replicate 4 ["C"; "u"; "put_obj"]) as ->
    by by vm_compute.
  simpl. repeat (apply Forall_cons; split; [done|]). by apply Forall_nil.
Qed.

(** One goroutine at a time, fan-out aggregation holds of every collector
    built by [NewBucketUsageCollector], whatever the gateway answers. *)
Lemma keepsSucceeding_in_turn `{!Imports} (exporter : Exporter) :
  let b := NewBucketUsageCollector exporter in
  (listBucketStats (BucketUsageCollector.config b) (BucketUsageCollector.user b)).2 = None ->
  (Unmarshal decodeBuckets []
     (listBucketStats (BucketUsageCollector.config b) (BucketUsageCollector.user b)).1).2 = None ->
  keepsSucceeding b [].
Proof.
  intros b Hlist Hdec.
  destruct (collect_in_turn b (NewBucketUsageCollector_declares exporter) Hlist Hdec)
    as [Hch Herr].
  split.
  - intros bt x Hbt _ Hx. rewrite Hch. apply list_elem_of_fmap. exists x. split; [done|].
    apply list_elem_of_In, in_flat_map. exists bt. by rewrite <- !list_elem_of_In.
  - intros Hfails. by apply Herr.
Qed.

(** C3, on the code. The goroutines assign the [buf] and [err] of the
    enclosing function.  When [A]'s lookup lands between [B]'s failed lookup
    and [B]'s test of [err], goroutine [B] finds [err] nil and [A]'s reply in
    [buf]: it sends four samples under the bucket label [B], nothing is
    logged, and [collect] returns nil.  The scenario does not give what is
    expected. *)
Theorem collect_overtaken_reports_failed_bucket :
  (collect Fake.collector Fake.overtaken).1 = None
  /\ Fake.labelsSent (collect Fake.collector Fake.overtaken)
     = replicate 4 ["B"; "u"; "put_obj"] ++ replicate 4 ["A"; "u"; "put_obj"]
       ++ replicate 4 ["C"; "u"; "put_obj"]
  /\ Fake.valuesSent (collect Fake.collector Fake.overtaken)
     = [100; 50; 5; 5; 100; 50; 5; 5; 100; 50; 5; 5]
  /\ logged (collect Fake.collector Fake.overtaken).2 = []
  /\ ~ Fake.asExpected (collect Fake.collector Fake.overtaken).
Proof.
  split; [by vm_compute|]. split; [by vm_compute|]. split; [by vm_compute|].
  split; [by vm_compute|]. intros (Hlen & _). vm_compute in Hlen. discriminate.
Qed.

(** C2, on the code. When [B]'s failed lookup lands between [A]'s lookup
    and [A]'s test of [err], goroutine [A] finds [B]'s error in [err] and nil
    in [buf]: the lookup of [A] succeeded, yet no sample of [A] is sent.
    Fan-out aggregation fails under this schedule. *)
Theorem collect_clobbered_drops_succeeding_bucket :
  Fake.A ∈ enumerated Fake.collector
  /\ lookupFails Fake.collector Fake.A = false
  /\ Fake.labelsSent (collect Fake.collector Fake.clobbered) = replicate 4 ["C"; "u"; "put_obj"]
  /\ (collect Fake.collector Fake.clobbered).1 = Some (SyntaxError "unexpected end of JSON input")
  /\ ~ keepsSucceeding Fake.collector Fake.clobbered.
Proof.
  assert (Fake.A ∈ enumerated Fake.collector) as HA.
  { apply list_elem_of_In. vm_compute. by left. }
  split; [done|]. split; [by vm_compute|]. split; [by vm_compute|]. split; [by vm_compute|].
  intros [Hkeeps _].
  specialize (Hkeeps Fake.A
                (BucketUsageCollector.BytesSent Fake.collector, 100, ["A"; "u"; "put_obj"]) HA).
  assert (Fake.labelsSent (collect Fake.collector Fake.clobbered)
          = replicate 4 ["C"; "u"; "put_obj"]) as Hsent by by vm_compute.
  assert (["A"; "u"; "put_obj"] ∈ Fake.labelsSent (collect Fake.collector Fake.clobbered))
    as Hin.
  { unfold Fake.labelsSent. apply list_elem_of_fmap. eexists. split; [|apply Hkeeps].
    - reflexivity.
    - by vm_compute.
    - apply list_elem_of_In. vm_compute. by left. }
  rewrite Hsent in Hin. apply list_elem_of_In in Hin. simpl in Hin.
  destruct Hin as [Heq | [Heq | [Heq | [Heq | []]]]]; discriminate.
Qed.

End CephFacts.

(** * More properties of the exporter *)

Module ExporterMore.
Import Exporter ExporterFacts.

Section Calls.
Context {C : Type} `{!Conn C} `{!Imports C}.
Implicit Types (c : CephExporter) (w : World C) (e : error).

Lemma forEach_callCollect_pass ccs w :
  forEach ccs callCollect w
  = (Return tt,
     set_invoked (invoked w ++ ccs)
       (set_metrics (metrics w ++ (passOver ccs (CephVersion w) (conn w)).2)
          (set_conn (passOver ccs (CephVersion w) (conn w)).1 w))).
Proof.
  revert w. induction ccs as [|cc ccs IH]; intros w.
  - simpl. rewrite !app_nil_r. by destruct w.
  - simpl forEach. unfold bind at 1, callCollect at 1, modify. simpl passOver.
    destruct (subCollect cc (CephVersion w) (conn w)) as [cn' sent].
    rewrite IH. simpl.
    destruct (passOver ccs (CephVersion w) cn') as [cn'' more]. simpl.
    unfold set_invoked, set_metrics, set_conn. simpl.
    by rewrite <- !app_assoc.
Qed.

Lemma forEach_callDescribe ccs w :
  forEach ccs callDescribe w
  = (Return tt,
     set_invoked (invoked w ++ ccs) (set_descs (descs w ++ flat_map subDescribe ccs) w)).
Proof.
  revert w. induction ccs as [|cc ccs IH]; intros w.
  - simpl. rewrite !app_nil_r. by destruct w.
  - simpl forEach. unfold bind at 1, callDescribe at 1, modify. rewrite IH. simpl.
    unfold set_invoked, set_descs. simpl. by rewrite <- !app_assoc.
Qed.

(** X1. With [versionLock] free, [setCephVersion] returns nil exactly when
    the command, the decoding and the parsing all succeed; it then replaces
    whatever the shared slot held by the parsed version, leaves both locks as
    they were and logs nothing. *)
Theorem setCephVersion_stores_parsed_version c w :
  versionLock w = false ->
  ((setCephVersion c w).1 = Return None <-> failure w = None)
  /\ (failure w = None ->
      CephVersion (setCephVersion c w).2 = (parsed w).1
      /\ versionLock (setCephVersion c w).2 = false
      /\ mu (setCephVersion c w).2 = mu w
      /\ logged (setCephVersion c w).2 = logged w).
Proof.
  intros Hfree. split.
  - destruct (failure w) as [e|] eqn:Hf.
    + rewrite (setCephVersion_failed c w e Hf). simpl. split; [by intros [= ?]|done].
    + by rewrite (setCephVersion_passed c w Hf Hfree).
  - intros Hf. rewrite (setCephVersion_passed c w Hf Hfree). simpl.
    by rewrite Hfree.
Qed.

(** X2. A [Describe] whose refresh succeeds sends the descriptors of the
    active list, sub-collector by sub-collector in the order of the list, and
    returns; it neither takes nor waits for [mu], so it also runs while a
    [Collect] holds it. *)
Theorem Describe_sends_descriptors_in_order c w :
  failure w = None ->
  versionLock w = false ->
  exists w',
    Describe c w = (Return tt, w')
    /\ descs w' = descs w ++ flat_map subDescribe (getCollectors c).1
    /\ invoked w' = invoked w ++ (getCollectors c).1
    /\ metrics w' = metrics w
    /\ CephVersion w' = (parsed w).1
    /\ mu w' = mu w.
Proof.
  intros Hf Hfree. unfold Describe, bind at 1.
  rewrite (setCephVersion_passed c w Hf Hfree).
  destruct (getCollectors c) as [ccs warnings]. unfold bind, logAll, modify.
  rewrite forEach_callDescribe. eexists. split; [reflexivity|]. by simpl.
Qed.

(** X3. A [Collect] that runs without interference from another
    invocation, whose refresh succeeds and that finds [mu] free, runs one
    pass: every sub-collector of the active list, in order, reads the version
    that this call has just stored and continues on the connection where the
    previous one left it; their metrics are sent in that order, and [mu] is
    free again at the end. *)
Theorem Collect_sends_pass_in_order c w :
  failure w = None ->
  versionLock w = false ->
  mu w = false ->
  let pass := passOver (getCollectors c).1 (parsed w).1 (conn (afterCommand w)) in
  exists w',
    Collect c w = (Return tt, w')
    /\ metrics w' = metrics w ++ pass.2
    /\ conn w' = pass.1
    /\ CephVersion w' = (parsed w).1
    /\ descs w' = descs w
    /\ mu w' = false
    /\ versionLock w' = false.
Proof.
  intros Hf Hfree Hmu pass. unfold Collect, bind at 1.
  rewrite (setCephVersion_passed c w Hf Hfree).
  unfold bind at 1, Lock. simpl. rewrite Hmu. unfold defer.
  subst pass. destruct (getCollectors c) as [ccs warnings]. simpl.
  unfold bind at 1, logAll, modify. rewrite forEach_callCollect_pass.
  unfold bind, Unlock, ret. simpl.
  eexists. split; [reflexivity|]. simpl. by rewrite Hfree.
Qed.

(** X4. A [Collect] that finds [mu] held has to wait, and it waits having
    already refreshed the shared version: the slot holds the version this
    call parsed although the call has sent no metric and called no
    sub-collector yet. *)
Theorem Collect_waits_after_refresh c w :
  failure w = None ->
  versionLock w = false ->
  mu w = true ->
  exists w',
    Collect c w = (Blocked, w')
    /\ CephVersion w' = (parsed w).1
    /\ metrics w' = metrics w
    /\ invoked w' = invoked w
    /\ logged w' = logged w
    /\ mu w' = true.
Proof.
  intros Hf Hfree Hmu. unfold Collect, bind at 1.
  rewrite (setCephVersion_passed c w Hf Hfree).
  unfold bind at 1, Lock. simpl. rewrite Hmu.
  eexists. split; [reflexivity|]. by simpl.
Qed.

End Calls.

(** A cluster that has been upgraded since the last scrape. *)
Lemma setCephVersion_stores_parsed_version_witness :
  (setCephVersion (Fake.exporter 0)
     (Fake.worldAt (Some (16, 2, 0)) [Fake.ok (Fake.versionReply Fake.quincy)])).1
  = Return None
  /\ CephVersion
       (setCephVersion (Fake.exporter 0)
          (Fake.worldAt (Some (16, 2, 0)) [Fake.ok (Fake.versionReply Fake.quincy)])).2
     = Some (17, 2, 0).
Proof.
  split.
  - apply (proj1 (setCephVersion_stores_parsed_version (Fake.exporter 0)
                    (Fake.worldAt (Some (16, 2, 0)) [Fake.ok (Fake.versionReply Fake.quincy)])
                    eq_refl)).
    reflexivity.
  - exact (proj1 (proj2 (setCephVersion_stores_parsed_version (Fake.exporter 0)
                           (Fake.worldAt (Some (16, 2, 0))
                              [Fake.ok (Fake.versionReply Fake.quincy)])
                           eq_refl) eq_refl)).
Defined.

(** [Describe] while a pass holds [mu]. *)
Lemma Describe_sends_descriptors_in_order_witness :
  exists w',
    Describe (Fake.exporter 0) (Fake.duringPass [Fake.ok (Fake.versionReply Fake.quincy)])
    = (Return tt, w')
    /\ descs w' = [] ++ map Fake.collectorDesc (standard (Fake.exporter 0))
    /\ invoked w' = [] ++ standard (Fake.exporter 0)
    /\ metrics w' = []
    /\ CephVersion w' = Some (17, 2, 0)
    /\ mu w' = true.
Proof.
  exact (Describe_sends_descriptors_in_order (Fake.exporter 0)
           (Fake.duringPass [Fake.ok (Fake.versionReply Fake.quincy)]) eq_refl eq_refl).
Defined.

(** Mode 1: seven sub-collectors, all reading the version just stored. *)
Lemma Collect_sends_pass_in_order_witness :
  exists w',
    Collect (Fake.exporter 1)
      (Fake.worldAt (Some (16, 2, 0)) [Fake.ok (Fake.versionReply Fake.quincy)])
    = (Return tt, w')
    /\ metrics w'
       = [] ++ map (fun cc => prometheus.mkMetric (Fake.collectorDesc cc) prometheus.GaugeValue 17 [])
                 (getCollectors (Fake.exporter 1)).1
    /\ conn w' = []
    /\ CephVersion w' = Some (17, 2, 0)
    /\ descs w' = []
    /\ mu w' = false
    /\ versionLock w' = false.
Proof.
  exact (Collect_sends_pass_in_order (Fake.exporter 1)
           (Fake.worldAt (Some (16, 2, 0)) [Fake.ok (Fake.versionReply Fake.quincy)])
           eq_refl eq_refl eq_refl).
Defined.

(** A scrape that arrives during a pass. *)
Lemma Collect_waits_after_refresh_witness :
  exists w',
    Collect (Fake.exporter 0) (Fake.duringPass [Fake.ok (Fake.versionReply Fake.quincy)])
    = (Blocked, w')
    /\ CephVersion w' = Some (17, 2, 0)
    /\ metrics w' = []
    /\ invoked w' = []
    /\ logged w' = []
    /\ mu w' = true.
Proof.
  exact (Collect_waits_after_refresh (Fake.exporter 0)
           (Fake.duringPass [Fake.ok (Fake.versionReply Fake.quincy)])
           eq_refl eq_refl eq_refl).
Defined.

(** ** Concurrent invocations: both locks *)

Section Interleaving.
Context {C : Type} `{!Conn C} `{!Imports C}.
Implicit Types (c : CephExporter) (w : World C) (m : Machine C) (t : Thread C) (p : PC C).
Implicit Types (ts : list (Thread C)) (test : Thread C -> bool) (f : Thread C -> nat).

Lemma sum_insert f ts i t t' :
  ts !! i = Some t ->
  (sum_list (map f (<[i := t']> ts)) + f t = sum_list (map f ts) + f t')%nat.
Proof.
  revert i. induction ts as [|t0 ts IH]; intros [|i] Hi; try done.
  - injection Hi as ->. simpl. lia.
  - simpl in *. specialize (IH i Hi). lia.
Qed.

Lemma countOf_insert test ts i t t' :
  ts !! i = Some t ->
  (countOf test (<[i := t']> ts) + (if test t then 1 else 0)
   = countOf test ts + (if test t' then 1 else 0))%nat.
Proof.
  intros Hi. unfold countOf.
  exact (sum_insert (fun t => if test t then 1 else 0)%nat ts i t t' Hi).
Qed.

Lemma countOf_member test ts i t :
  ts !! i = Some t -> test t = true -> (1 <= countOf test ts)%nat.
Proof.
  unfold countOf. revert i. induction ts as [|t0 ts IH]; intros [|i] Hi Ht; try done.
  - injection Hi as ->. simpl. rewrite Ht. lia.
  - simpl in *. specialize (IH i Hi Ht). lia.
Qed.

Lemma countOf_two test ts i j ti tj :
  ts !! i = Some ti -> ts !! j = Some tj -> i <> j ->
  test ti = true -> test tj = true ->
  (2 <= countOf test ts)%nat.
Proof.
  revert i j. induction ts as [|t0 ts IH]; intros i j Hi Hj Hne Hti Htj; [done|].
  change (countOf test (t0 :: ts)) with ((if test t0 then 1 else 0) + countOf test ts)%nat.
  destruct i as [|i], j as [|j]; simpl in Hi, Hj; try done.
  - injection Hi as ->. rewrite Hti. pose proof (countOf_member test ts j tj Hj Htj). lia.
  - injection Hj as ->. rewrite Htj. pose proof (countOf_member test ts i ti Hi Hti). lia.
  - assert (i <> j) as Hne' by congruence. specialize (IH i j Hi Hj Hne' Hti Htj).
    destruct (test t0); lia.
Qed.

Lemma countOf_positive test ts :
  (0 < countOf test ts)%nat -> exists i t, ts !! i = Some t /\ test t = true.
Proof.
  unfold countOf. induction ts as [|t0 ts IH]; simpl; [lia|].
  destruct (test t0) eqn:Ht0.
  - intros _. by exists 0%nat, t0.
  - intros Hpos. destruct IH as (i & t & Hi & Ht); [lia|]. by exists (S i), t.
Qed.

Lemma countOf_none test ts :
  Forall (fun t => test t = false) ts -> countOf test ts = 0%nat.
Proof.
  unfold countOf. induction 1 as [|t ts Ht _ IH]; [done|]. simpl. by rewrite Ht, IH.
Qed.

(** What a statement does to [versionLock], as [statement_mu] for [mu]. *)
Lemma statement_versionLock c p w p' w' :
  statement c p w = (Return p', w') ->
  (versionLock w' = versionLock w /\ storing p' = storing p)
  \/ (versionLock w = false /\ versionLock w' = true /\ storing p = false /\ storing p' = true)
  \/ (storing p = true /\ versionLock w = true /\ versionLock w' = false /\ storing p' = false).
Proof.
  destruct p as [|v|v| | | |[|cc rest]|]; simpl.
  - unfold bind at 1. rewrite fetchCephVersion_eq.
    destruct (failure w); intros [= <- <-]; by left.
  - unfold bind, Lock, ret. destruct (versionLock w) eqn:Hv; [done|].
    intros [= <- <-]. right. by left.
  - intros [= <- <-]. by left.
  - unfold bind, Unlock, ret. destruct (versionLock w) eqn:Hv; [|done].
    intros [= <- <-]. right. by right.
  - unfold bind, Lock, ret. destruct (mu w) eqn:Hmu; [done|].
    intros [= <- <-]. by left.
  - destruct (getCollectors c) as [ccs warnings]. intros [= <- <-]. by left.
  - unfold bind, Unlock, ret. destruct (mu w) eqn:Hmu; [|done].
    intros [= <- <-]. by left.
  - unfold bind, callCollect, modify, ret.
    destruct (subCollect cc (CephVersion w) (conn w)). intros [= <- <-]. by left.
  - done.
Qed.

(** The unlock of [mu] finds it held. *)
Lemma statement_mu_released c p w p' w' :
  statement c p w = (Return p', w') ->
  guarded p = true -> guarded p' = false -> mu w = true.
Proof.
  destruct p as [|v|v| | | |[|cc rest]|]; simpl; try done.
  - destruct (getCollectors c) as [ccs warnings]. by intros [= <- <-].
  - unfold bind, Unlock, ret. by destruct (mu w).
  - unfold bind, callCollect, modify, ret.
    destruct (subCollect cc (CephVersion w) (conn w)). by intros [= <- <-].
Qed.

Lemma step_balanced c i m m' : step c i m = Some m' -> balanced m -> balanced m'.
Proof.
  unfold step, balanced. destruct (threads m !! i) as [t|] eqn:Hi; [|done].
  destruct (statement c (pc t) (set_metrics (ch t) (world m))) as [[p'| | |] w'] eqn:Hst;
    try done.
  intros [= <-] [Hmu Hvl]. simpl.
  pose proof (countOf_insert holdsMu (threads m) i t (mkThread p' (metrics w')) Hi) as Hins.
  pose proof (countOf_insert holdsVersionLock (threads m) i t (mkThread p' (metrics w')) Hi)
    as Hinsv.
  change (holdsMu (mkThread p' (metrics w'))) with (guarded p') in Hins.
  change (holdsMu t) with (guarded (pc t)) in Hins.
  change (holdsVersionLock (mkThread p' (metrics w'))) with (storing p') in Hinsv.
  change (holdsVersionLock t) with (storing (pc t)) in Hinsv.
  pose proof (statement_mu c _ _ _ _ Hst) as Hm.
  pose proof (statement_mu_released c _ _ _ _ Hst) as Hrel.
  pose proof (statement_versionLock c _ _ _ _ Hst) as Hv. simpl in Hm, Hv, Hrel.
  split.
  - destruct Hm as [[Hm Hp'] | [(Hfree & Hm & Hp & Hp') | (Hp & Hm & Hp')]];
      rewrite Hm; rewrite Hp' in Hins.
    + destruct (guarded (pc t)); lia.
    + rewrite Hfree in Hmu. rewrite Hp in Hins. lia.
    + rewrite Hp in Hins. rewrite (Hrel Hp Hp') in Hmu. lia.
  - destruct Hv as [[Hv Hp'] | [(Hfree & Hv & Hp & Hp') | (Hp & Hheld & Hv & Hp')]];
      rewrite Hv; rewrite Hp' in Hinsv.
    + destruct (storing (pc t)); lia.
    + rewrite Hfree in Hvl. rewrite Hp in Hinsv. lia.
    + rewrite Hp in Hinsv. rewrite Hheld in Hvl. lia.
Qed.

Lemma exec_balanced c schedule m m' :
  exec c schedule m = Some m' -> balanced m -> balanced m'.
Proof.
  revert m. induction schedule as [|i rest IH]; intros m; simpl.
  - by intros [= ->].
  - destruct (step c i m) as [m1|] eqn:Hstep; [|done].
    intros Hexec Hbal. eapply IH; [done|]. by eapply step_balanced.
Qed.

Lemma start_balanced w n :
  mu w = false -> versionLock w = false -> balanced (start w n).
Proof.
  intros Hmu Hvl. unfold balanced, start. simpl. rewrite Hmu, Hvl.
  split; apply countOf_none, Forall_replicate; done.
Qed.

(** A statement that is ready runs. *)
Lemma statement_ready c p w :
  ready p w = true -> exists p' w', statement c p w = (Return p', w').
Proof.
  destruct p as [|v|v| | | |[|cc rest]|]; simpl; intros Hready.
  - unfold bind at 1. rewrite fetchCephVersion_eq. destruct (failure w); by eexists _, _.
  - unfold bind, Lock, ret. apply negb_true_iff in Hready. rewrite Hready. by eexists _, _.
  - by eexists _, _.
  - unfold bind, Unlock, ret. rewrite Hready. by eexists _, _.
  - unfold bind, Lock, ret. apply negb_true_iff in Hready. rewrite Hready. by eexists _, _.
  - destruct (getCollectors c). by eexists _, _.
  - unfold bind, Unlock, ret. rewrite Hready. by eexists _, _.
  - unfold bind, callCollect, modify, ret.
    destruct (subCollect cc (CephVersion w) (conn w)). by eexists _, _.
  - done.
Qed.

Lemma step_ready c i m t :
  threads m !! i = Some t ->
  ready (pc t) (world m) = true ->
  exists m', step c i m = Some m'.
Proof.
  intros Hi Hready. unfold step. rewrite Hi.
  destruct (statement_ready c (pc t) (set_metrics (ch t) (world m))) as (p' & w' & ->).
  - by destruct (pc t) as [|v|v| | | |[|cc rest]|].
  - by eexists.
Qed.

(** With balanced locks, an invocation that has not finished can run, or
    the invocation that holds the lock it waits for can. *)
Lemma balanced_progress c m i t :
  balanced m ->
  threads m !! i = Some t ->
  finished t = false ->
  exists j m', step c j m = Some m'.
Proof.
  intros [Hmu Hvl] Hi Hfin.
  assert (forall test (held : bool),
            countOf test (threads m) = (if held then 1 else 0)%nat ->
            held = true ->
            exists j tj, threads m !! j = Some tj /\ test tj = true) as Hholder.
  { intros test held Hcount ->. apply countOf_positive. lia. }
  assert (forall test (held : bool),
            countOf test (threads m) = (if held then 1 else 0)%nat ->
            test t = true -> held = true) as Hheld.
  { intros test held Hcount Ht. pose proof (countOf_member test _ i t Hi Ht).
    destruct held; [done|lia]. }
  destruct (ready (pc t) (world m)) eqn:Hready.
  { destruct (step_ready c i m t Hi Hready) as [m' Hstep]. by exists i, m'. }
  unfold finished in Hfin.
  destruct (pc t) as [|v|v| | | |[|cc rest]|] eqn:Hpc; simpl in Hready; try done.
  - apply negb_false_iff in Hready.
    destruct (Hholder _ _ Hvl Hready) as (j & tj & Hj & Htj).
    destruct (step_ready c j m tj Hj) as [m' Hstep]; [|by exists j, m'].
    unfold holdsVersionLock in Htj.
    destruct (pc tj) as [|v'|v'| | | |[|cc rest]|]; simpl in *; done.
  - pose proof (Hheld holdsVersionLock _ Hvl) as Hv.
    unfold holdsVersionLock in Hv. rewrite Hpc in Hv. specialize (Hv eq_refl). congruence.
  - apply negb_false_iff in Hready.
    destruct (Hholder _ _ Hmu Hready) as (j & tj & Hj & Htj).
    destruct (step_ready c j m tj Hj) as [m' Hstep]; [|by exists j, m'].
    unfold holdsMu in Htj.
    destruct (pc tj) as [|v'|v'| | | |[|cc rest]|]; simpl in *; done.
  - pose proof (Hheld holdsMu _ Hmu) as Hm.
    unfold holdsMu in Hm. rewrite Hpc in Hm. specialize (Hm eq_refl). congruence.
Qed.

(** Every statement brings its invocation closer to its end. *)
Lemma statement_stepsLeft c p w p' w' :
  statement c p w = (Return p', w') -> (stepsLeft c p' < stepsLeft c p)%nat.
Proof.
  destruct p as [|v|v| | | |[|cc rest]|]; simpl.
  - unfold bind at 1. rewrite fetchCephVersion_eq.
    destruct (failure w); intros [= <- <-]; simpl; lia.
  - unfold bind, Lock, ret. destruct (versionLock w); [done|]. intros [= <- <-]. simpl. lia.
  - intros [= <- <-]. simpl. lia.
  - unfold bind, Unlock, ret. destruct (versionLock w); [|done]. intros [= <- <-]. simpl. lia.
  - unfold bind, Lock, ret. destruct (mu w); [done|]. intros [= <- <-]. simpl. lia.
  - destruct (getCollectors c) as [ccs warnings]. intros [= <- <-]. simpl. lia.
  - unfold bind, Unlock, ret. destruct (mu w); [|done]. intros [= <- <-]. simpl. lia.
  - unfold bind, callCollect, modify, ret.
    destruct (subCollect cc (CephVersion w) (conn w)). intros [= <- <-]. simpl. lia.
  - done.
Qed.

Lemma step_stepsLeft c i m m' :
  step c i m = Some m' ->
  (stepsLeftAll c (threads m') < stepsLeftAll c (threads m))%nat.
Proof.
  unfold step. destruct (threads m !! i) as [t|] eqn:Hi; [|done].
  destruct (statement c (pc t) (set_metrics (ch t) (world m))) as [[p'| | |] w'] eqn:Hst;
    try done.
  intros [= <-]. simpl. unfold stepsLeftAll.
  pose proof (sum_insert (fun t => stepsLeft c (pc t)) (threads m) i t
                (mkThread p' (metrics w')) Hi) as Hins.
  simpl in Hins. pose proof (statement_stepsLeft c _ _ _ _ Hst). lia.
Qed.

Lemma exec_stepsLeft c schedule m m' :
  exec c schedule m = Some m' ->
  (length schedule + stepsLeftAll c (threads m') <= stepsLeftAll c (threads m))%nat.
Proof.
  revert m. induction schedule as [|i rest IH]; intros m; simpl.
  - intros [= ->]. lia.
  - destruct (step c i m) as [m1|] eqn:Hstep; [|done].
    intros Hexec. specialize (IH m1 Hexec). pose proof (step_stepsLeft c i m m1 Hstep). lia.
Qed.

Lemma stepsLeft_start c w n :
  stepsLeftAll c (threads (start w n)) = (n * (7 + length (getCollectors c).1))%nat.
Proof.
  unfold start, stepsLeftAll. simpl. induction n as [|n IH]; [done|].
  simpl in *. rewrite IH. lia.
Qed.

Lemma exec_app c schedule1 schedule2 m m1 :
  exec c schedule1 m = Some m1 ->
  exec c (schedule1 ++ schedule2) m = exec c schedule2 m1.
Proof.
  revert m. induction schedule1 as [|i rest IH]; intros m; simpl.
  - by intros [= ->].
  - destruct (step c i m) as [m'|]; [|done]. apply IH.
Qed.

Lemma unfinished_member ts :
  forallb finished ts = false -> exists i t, ts !! i = Some t /\ finished t = false.
Proof.
  induction ts as [|t0 ts IH]; simpl; [done|].
  destruct (finished t0) eqn:Ht0; simpl.
  - intros Hrest. destruct (IH Hrest) as (i & t & Hi & Ht). by exists (S i), t.
  - intros _. by exists 0%nat, t0.
Qed.

(** From balanced locks, the invocations can be run to their ends. *)
Lemma balanced_completion c m :
  balanced m ->
  exists rest m', exec c rest m = Some m' /\ forallb finished (threads m') = true.
Proof.
  remember (stepsLeftAll c (threads m)) as k eqn:Hk.
  revert m Hk. induction (lt_wf k) as [k _ IH]. intros m Hk Hbal.
  destruct (forallb finished (threads m)) eqn:Hall.
  { by exists [], m. }
  destruct (unfinished_member _ Hall) as (i & t & Hi & Ht).
  destruct (balanced_progress c m i t Hbal Hi Ht) as (j & m1 & Hstep).
  pose proof (step_stepsLeft c j m m1 Hstep) as Hless.
  destruct (IH (stepsLeftAll c (threads m1))) with (m := m1) as (rest & m' & Hexec & Hfin);
    [lia|done|by eapply step_balanced|].
  exists (j :: rest), m'. simpl. by rewrite Hstep.
Qed.

(** X5. Whatever the schedule of [n] concurrent invocations of [Collect]
    that start with [versionLock] free, at most one of them is between
    [versionLock.Lock()] and [versionLock.Unlock()]: the stores to
    [CephVersion] exclude each other. *)
Theorem version_stores_exclude_each_other c w n schedule m i j ti tj :
  mu w = false ->
  versionLock w = false ->
  exec c schedule (start w n) = Some m ->
  threads m !! i = Some ti ->
  threads m !! j = Some tj ->
  i <> j ->
  holdsVersionLock ti = true ->
  holdsVersionLock tj = false.
Proof.
  intros Hmu Hvl Hexec Hi Hj Hne Hti.
  destruct (exec_balanced c schedule _ m Hexec (start_balanced w n Hmu Hvl)) as [_ Hcount].
  destruct (holdsVersionLock tj) eqn:Htj; [|done].
  pose proof (countOf_two holdsVersionLock (threads m) i j ti tj Hi Hj Hne Hti Htj).
  destruct (versionLock (world m)); lia.
Qed.

(** X6. When concurrent invocations that started with both locks free have
    all finished, both locks are free again: no path through [Collect], the
    early return of a failed refresh included, leaves [mu] or [versionLock]
    held. *)
Theorem locks_free_when_all_finished c w n schedule m :
  mu w = false ->
  versionLock w = false ->
  exec c schedule (start w n) = Some m ->
  forallb finished (threads m) = true ->
  mu (world m) = false /\ versionLock (world m) = false.
Proof.
  intros Hmu Hvl Hexec Hfin.
  destruct (exec_balanced c schedule _ m Hexec (start_balanced w n Hmu Hvl)) as [Hm Hv].
  assert (forall test, (forall t, finished t = true -> test t = false) ->
            countOf test (threads m) = 0%nat) as Hnone.
  { intros test Htest. apply countOf_none, Forall_forall. intros t Ht.
    apply Htest. rewrite forallb_forall in Hfin. apply Hfin. by apply list_elem_of_In. }
  rewrite (Hnone holdsMu) in Hm.
  2: { intros t. unfold finished, holdsMu. by destruct (pc t). }
  rewrite (Hnone holdsVersionLock) in Hv.
  2: { intros t. unfold finished, holdsVersionLock. by destruct (pc t). }
  split; [by destruct (mu (world m))|by destruct (versionLock (world m))].
Qed.

(** X7. Concurrent invocations of [Collect] cannot deadlock: from every state
    that [n] invocations can reach, having started with both locks free, some
    continuation of the schedule runs all of them to their end. *)
Theorem Collect_invocations_can_finish c w n schedule m :
  mu w = false ->
  versionLock w = false ->
  exec c schedule (start w n) = Some m ->
  exists rest m',
    exec c (schedule ++ rest) (start w n) = Some m'
    /\ forallb finished (threads m') = true.
Proof.
  intros Hmu Hvl Hexec.
  pose proof (exec_balanced c schedule _ m Hexec (start_balanced w n Hmu Hvl)) as Hbal.
  destruct (balanced_completion c m Hbal) as (rest & m' & Hrest & Hfin).
  exists rest, m'. split; [|done]. by rewrite (exec_app c schedule rest _ m Hexec).
Qed.

(** X8. Every invocation of [Collect] ends after at most 7 statements plus
    one per sub-collector of the active list: no schedule of [n] invocations
    has more than [n * (7 + length active)] steps, whatever the cluster
    answers. *)
Theorem Collect_invocations_take_bounded_steps c w n schedule m :
  exec c schedule (start w n) = Some m ->
  (length schedule <= n * (7 + length (getCollectors c).1))%nat.
Proof.
  intros Hexec. pose proof (exec_stepsLeft c schedule _ m Hexec) as Hle.
  rewrite stepsLeft_start in Hle. lia.
Qed.

(** ** The order of the sub-collector calls *)

Lemma concat_replicate_snoc {A} (l : list A) k :
  concat (replicate k l) ++ l = concat (replicate (S k) l).
Proof.
  induction k as [|k IH]; simpl; [by rewrite app_nil_r|].
  by rewrite <- app_assoc, IH.
Qed.

(** What a statement does to the record of calls. *)
Lemma statement_invoked c p w p' w' :
  statement c p w = (Return p', w') ->
  (p = AtGetCollectors /\ p' = AtPass (getCollectors c).1 /\ invoked w' = invoked w)
  \/ (exists cc rest, p = AtPass (cc :: rest) /\ p' = AtPass rest
                      /\ invoked w' = invoked w ++ [cc])
  \/ (p = AtPass [] /\ p' = Finished /\ invoked w' = invoked w)
  \/ (guarded p = false /\ (forall rest, p' <> AtPass rest) /\ invoked w' = invoked w).
Proof.
  destruct p as [|v|v| | | |[|cc rest]|]; simpl.
  - unfold bind at 1. rewrite fetchCephVersion_eq.
    destruct (failure w); intros [= <- <-]; by do 3 right.
  - unfold bind, Lock, ret. destruct (versionLock w); [done|].
    intros [= <- <-]. by do 3 right.
  - intros [= <- <-]. by do 3 right.
  - unfold bind, Unlock, ret. destruct (versionLock w); [|done].
    intros [= <- <-]. by do 3 right.
  - unfold bind, Lock, ret. destruct (mu w); [done|].
    intros [= <- <-]. by do 3 right.
  - destruct (getCollectors c) as [ccs warnings]. intros [= <- <-]. by left.
  - unfold bind, Unlock, ret. destruct (mu w); [|done].
    intros [= <- <-]. right. right. by left.
  - unfold bind, callCollect, modify, ret.
    destruct (subCollect cc (CephVersion w) (conn w)). intros [= <- <-].
    right. left. by exists cc, rest.
  - done.
Qed.

Lemma accounted_alone m i j ti tj :
  accounted m ->
  threads m !! i = Some ti ->
  threads m !! j = Some tj ->
  i <> j ->
  holdsMu ti = true ->
  holdsMu tj = false.
Proof.
  intros Hacc Hi Hj Hne Hti. destruct (holdsMu tj) eqn:Htj; [|done].
  pose proof (countOf_two holdsMu (threads m) i j ti tj Hi Hj Hne Hti Htj) as Htwo.
  unfold accounted in Hacc. change (holders (threads m)) with (countOf holdsMu (threads m)) in Hacc.
  destruct (mu (world m)); lia.
Qed.

Lemma step_wholePasses c i m m' :
  step c i m = Some m' -> accounted m -> wholePasses c m -> wholePasses c m'.
Proof.
  unfold step. destruct (threads m !! i) as [t|] eqn:Hi; [|done].
  destruct (statement c (pc t) (set_metrics (ch t) (world m))) as [[p'| | |] w'] eqn:Hst;
    try done.
  intros [= <-] Hacc (k & done & Hinv & Hrest & Hnone).
  pose proof (lookup_lt_Some _ _ _ Hi) as Hlt.
  assert (forall j tj, j <> i -> threads m !! j = Some tj -> guarded (pc t) = true ->
            forall rest, pc tj <> AtPass rest) as Hothers.
  { intros j tj Hne Hj Hg rest Hpc.
    pose proof (accounted_alone m i j t tj Hacc Hi Hj (not_eq_sym Hne) Hg) as Hfalse.
    unfold holdsMu in Hfalse. by rewrite Hpc in Hfalse. }
  assert (forall j tj,
            <[i := mkThread p' (metrics w')]> (threads m) !! j = Some tj ->
            (j = i /\ tj = mkThread p' (metrics w')) \/ (j <> i /\ threads m !! j = Some tj))
    as Hlookup.
  { intros j tj Hj. destruct (decide (j = i)) as [->|Hne].
    - rewrite list_lookup_insert_eq in Hj by done. injection Hj as <-. by left.
    - rewrite list_lookup_insert_ne in Hj by done. by right. }
  apply statement_invoked in Hst. simpl in Hst.
  destruct Hst as [(Hp & -> & Hw) | [(cc & rest & Hp & -> & Hw)
                  | [(Hp & -> & Hw) | (Hp & Hp' & Hw)]]].
  - (* the list is built: no call of this pass yet *)
    assert (done = []) as ->.
    { apply Hnone. intros j tj Hj. unfold looping.
      destruct (decide (j = i)) as [->|Hne].
      - rewrite Hi in Hj. injection Hj as <-. by rewrite Hp.
      - destruct (pc tj) eqn:Hpc; try done.
        exfalso. eapply (Hothers j tj Hne Hj); [by rewrite Hp|done]. }
    exists k, []. simpl. split; [by rewrite Hw, Hinv|]. split; [|done].
    intros j tj rest Hj Hpc. apply Hlookup in Hj as [[-> ->] | [Hne Hj]].
    + simpl in Hpc. by injection Hpc as <-.
    + exfalso. eapply (Hothers j tj Hne Hj); [by rewrite Hp|done].
  - (* one more call of the pass *)
    exists k, (done ++ [cc]). simpl. split; [by rewrite Hw, Hinv, app_assoc|]. split.
    + intros j tj rest' Hj Hpc. apply Hlookup in Hj as [[-> ->] | [Hne Hj]].
      * simpl in Hpc. injection Hpc as <-. rewrite <- app_assoc. simpl. by eapply Hrest.
      * exfalso. eapply (Hothers j tj Hne Hj); [by rewrite Hp|done].
    + intros Hno. specialize (Hno i (mkThread (AtPass rest) (metrics w'))).
      rewrite list_lookup_insert_eq in Hno by done. by specialize (Hno eq_refl).
  - (* the pass is over *)
    pose proof (Hrest i t [] Hi Hp) as Hdone. rewrite app_nil_r in Hdone. subst done.
    exists (S k), []. simpl. split.
    + rewrite Hw, Hinv, app_nil_r. apply (concat_replicate_snoc _ k).
    + split; [|done]. intros j tj rest Hj Hpc. apply Hlookup in Hj as [[-> ->] | [Hne Hj]].
      * done.
      * exfalso. eapply (Hothers j tj Hne Hj); [by rewrite Hp|done].
  - (* a statement outside the loop *)
    exists k, done. simpl. split; [by rewrite Hw|]. split.
    + intros j tj rest Hj Hpc. apply Hlookup in Hj as [[-> ->] | [Hne Hj]].
      * by destruct (Hp' rest).
      * by eapply Hrest.
    + intros Hno. apply Hnone. intros j tj Hj. destruct (decide (j = i)) as [->|Hne].
      * rewrite Hi in Hj. injection Hj as <-. unfold looping.
        destruct (pc t); try done.
      * apply (Hno j tj). by rewrite list_lookup_insert_ne.
Qed.

Lemma exec_wholePasses c schedule m m' :
  exec c schedule m = Some m' -> accounted m -> wholePasses c m -> wholePasses c m'.
Proof.
  revert m. induction schedule as [|i rest IH]; intros m; simpl.
  - by intros [= ->].
  - destruct (step c i m) as [m1|] eqn:Hstep; [|done].
    intros Hexec Hacc Hwhole. eapply IH; [done| |].
    + by eapply step_accounted.
    + by eapply step_wholePasses.
Qed.

(** X9. Whatever the schedule of [n] concurrent invocations of [Collect], the
    calls of sub-collectors, in the order in which they are made over all
    invocations together, form whole passes over the active list, each in the
    order of the list, followed by the beginning of at most one more pass;
    when all invocations have finished, only whole passes remain. *)
Theorem sub_collector_calls_form_whole_passes c w n schedule m :
  invoked w = [] ->
  exec c schedule (start w n) = Some m ->
  exists k done,
    invoked (world m) = concat (replicate k (getCollectors c).1) ++ done
    /\ done `prefix_of` (getCollectors c).1
    /\ (forallb finished (threads m) = true -> done = []).
Proof.
  intros Hempty Hexec.
  assert (accounted (start w n)) as Hacc.
  { unfold accounted, start. simpl. rewrite holders_start. lia. }
  assert (wholePasses c (start w n)) as Hwhole.
  { exists 0%nat, []. simpl. split; [done|]. split; [|done].
    intros i t rest Hi Hpc. unfold start in Hi. simpl in Hi.
    apply lookup_replicate in Hi as [-> _]. done. }
  destruct (exec_wholePasses c schedule _ m Hexec Hacc Hwhole) as (k & done & Hinv & Hrest & Hnone).
  exists k, done. split; [done|].
  destruct (decide (0 < countOf looping (threads m))%nat) as [Hpos|Hzero].
  - apply countOf_positive in Hpos as (i & t & Hi & Ht).
    unfold looping in Ht. destruct (pc t) as [| | | | | |rest|] eqn:Hpc; try done.
    split; [exists rest; symmetry; by eapply Hrest|].
    intros Hfin. rewrite forallb_forall in Hfin.
    assert (finished t = true) as Hf by (apply Hfin, list_elem_of_In, list_elem_of_lookup; eauto).
    unfold finished in Hf. by rewrite Hpc in Hf.
  - assert (done = []) as ->; [|split; [apply prefix_nil|done]].
    apply Hnone. intros i t Hi. destruct (looping t) eqn:Ht; [|done].
    pose proof (countOf_member looping _ i t Hi Ht). lia.
Qed.

End Interleaving.

Lemma refreshing_state :
  exec (Fake.exporter 0) Fake.refreshing (start Fake.upgraded 2)
  = Some (mkMachine (mkWorld [] None true false [] [] [] []) [Fake.atStore; Fake.atLock]).
Proof. reflexivity. Qed.

Lemma version_stores_exclude_each_other_witness :
  holdsVersionLock Fake.atStore = true /\ holdsVersionLock Fake.atLock = false.
Proof.
  split; [reflexivity|].
  apply (version_stores_exclude_each_other (Fake.exporter 0) Fake.upgraded 2 Fake.refreshing
           _ 0%nat 1%nat Fake.atStore Fake.atLock eq_refl eq_refl refreshing_state);
    [reflexivity..|done|reflexivity].
Defined.

Lemma overlapping_state :
  exec (Fake.exporter 0) Fake.overlapping (start Fake.upgraded 2)
  = Some (mkMachine
            (mkWorld [] (Some (17, 2, 0)) false false [] []
               (map (fun cc => prometheus.mkMetric (Fake.collectorDesc cc)
                                 prometheus.GaugeValue 17 [])
                  (standard (Fake.exporter 0)))
               (standard (Fake.exporter 0) ++ standard (Fake.exporter 0)))
            [mkThread Finished
               (map (fun '(cc, v) => prometheus.mkMetric (Fake.collectorDesc cc)
                                       prometheus.GaugeValue v [])
                  (zip (standard (Fake.exporter 0)) [16; 16; 17; 17; 17; 17]));
             mkThread Finished
               (map (fun cc => prometheus.mkMetric (Fake.collectorDesc cc)
                                 prometheus.GaugeValue 17 [])
                  (standard (Fake.exporter 0)))]).
Proof. reflexivity. Qed.

Lemma locks_free_when_all_finished_witness :
  exists m,
    exec (Fake.exporter 0) Fake.overlapping (start Fake.upgraded 2) = Some m
    /\ forallb finished (threads m) = true
    /\ mu (world m) = false
    /\ versionLock (world m) = false.
Proof.
  eexists. split; [exact overlapping_state|]. split; [reflexivity|].
  apply (locks_free_when_all_finished (Fake.exporter 0) Fake.upgraded 2 Fake.overlapping
           _ eq_refl eq_refl overlapping_state).
  reflexivity.
Defined.

(** From the state in which the second scrape waits for [mu]. *)
Lemma Collect_invocations_can_finish_witness :
  exists rest m',
    exec (Fake.exporter 0) (Fake.midPass ++ rest) (start Fake.upgraded 2) = Some m'
    /\ forallb finished (threads m') = true.
Proof.
  apply (Collect_invocations_can_finish (Fake.exporter 0) Fake.upgraded 2 Fake.midPass
           _ eq_refl eq_refl midPass_state).
Defined.

(** Two scrapes of six sub-collectors: [Fake.overlapping] has the 26
    statements that the bound allows. *)
Lemma Collect_invocations_take_bounded_steps_witness :
  (length Fake.overlapping <= 2 * (7 + length (getCollectors (Fake.exporter 0)).1))%nat.
Proof.
  apply (Collect_invocations_take_bounded_steps (Fake.exporter 0) Fake.upgraded 2
           Fake.overlapping _ overlapping_state).
Defined.

(** In the middle of the first pass: no whole pass yet, and its first two
    calls. *)
Lemma sub_collector_calls_form_whole_passes_witness :
  exists k done,
    [NewClusterUsageCollector "ceph"; NewPoolUsageCollector "ceph"]
    = concat (replicate k (getCollectors (Fake.exporter 0)).1) ++ done
    /\ done `prefix_of` (getCollectors (Fake.exporter 0)).1
    /\ (forallb finished [Fake.inPass; Fake.waiting] = true -> done = []).
Proof.
  apply (sub_collector_calls_form_whole_passes (Fake.exporter 0) Fake.upgraded 2 Fake.midPass
           _ eq_refl midPass_state).
Defined.

End ExporterMore.

(** * More properties of the bucket-usage collector *)

Module CephMore.
Import ceph CephFacts.

Section Fanout.
Context `{!Imports}.
Implicit Types (b : BucketUsageCollector.t) (bt : bucket.t) (bts : list bucket.t).
Implicit Types (s : Shared) (g : Goroutine) (gs : list Goroutine) (x : Sample).

(** ** The books of the fan-out *)

Lemma Describe_elem b d :
  d ∈ Describe b
  <-> d = BucketUsageCollector.BytesSent b \/ d = BucketUsageCollector.BytesReceived b
      \/ d = BucketUsageCollector.Ops b \/ d = BucketUsageCollector.SuccessfulOps b.
Proof.
  unfold Describe. rewrite !elem_of_cons, elem_of_nil. tauto.
Qed.

Lemma samplesOf_described b bt usage :
  Forall (fun x => x.1.1 ∈ Describe b) (samplesOf b bt usage).
Proof.
  apply Forall_forall. intros x Hx. apply list_elem_of_In in Hx. unfold samplesOf in Hx.
  apply in_flat_map in Hx as (su & _ & Hx). apply in_flat_map in Hx as (ca & _ & Hx).
  simpl in Hx. apply Describe_elem.
  destruct Hx as [<-|[<-|[<-|[<-|[]]]]]; simpl; tauto.
Qed.

Lemma unmarshal_described b bt s :
  Forall (fun x => x.1.1 ∈ Describe b) (unmarshal b bt s).1.
Proof.
  unfold unmarshal. destruct (Unmarshal decodeUsage (mkBucketUsage []) (buf s)) as [usage e].
  apply samplesOf_described.
Qed.

Lemma tidyShared_send b bts x s :
  x.1.1 ∈ Describe b -> tidyShared b bts s -> tidyShared b bts (send x s).
Proof.
  destruct x as [[d v] labels]. simpl. intros Hd (Hch & Hlog & Hlast).
  unfold send, prometheus.MustNewConstMetric, prometheus.NewConstMetric.
  destruct (Nat.eqb _ _); [|done].
  split; [|done]. simpl. apply Forall_app. split; [done|]. by apply Forall_singleton.
Qed.

(** An entry is added to the log (lines 83 and 88). *)
Lemma tidyShared_log b bts bt s en :
  bt ∈ bts ->
  bucketEntry [bt] en ->
  tidyShared b bts s ->
  tidyShared b bts
    (mkShared (buf s) (err s) (latestErr s) (ch s) (logged s ++ [en]) (panicked s)).
Proof.
  intros Hbt (Hlevel & Hmsg & bt' & Hbt' & Hfields) (Hch & Hlog & Hlast).
  apply list_elem_of_singleton in Hbt' as ->.
  split; [done|]. split; simpl.
  - apply Forall_app. split; [done|]. apply Forall_singleton.
    split; [done|]. split; [done|]. by exists bt.
  - intros Hnil. by destruct (logged s).
Qed.

Lemma tidyShared_logLookup b bts bt s :
  bt ∈ bts -> tidyShared b bts s -> tidyShared b bts (logLookup bt s).
Proof.
  intros Hbt Hs. unfold logLookup. apply (tidyShared_log b bts bt); [done| |done].
  split; [done|]. split; [by left|]. exists bt. split; [|done].
  by apply list_elem_of_singleton.
Qed.

Lemma tidyShared_logDecode b bts bt e s :
  bt ∈ bts -> tidyShared b bts s -> tidyShared b bts (logDecode bt e s).
Proof.
  intros Hbt Hs. unfold logDecode. apply (tidyShared_log b bts bt); [done| |done].
  split; [done|]. split; [by right|]. exists bt. split; [|done].
  by apply list_elem_of_singleton.
Qed.

Lemma step_tidy b bts i st st' :
  step b i st = Some st' -> tidy b bts st -> tidy b bts st'.
Proof.
  destruct st as [s gs]. unfold step.
  destruct (panicked s); [done|]. destruct (gs !! i) as [g|] eqn:Hi; [|done].
  intros Hstep (Hs & Hgs & Hstore). simpl in Hs, Hgs, Hstore.
  assert (tidyTask b bts g) as [Hbt Hpending].
  { eapply Forall_lookup_1; [exact Hgs|exact Hi]. }
  assert (aboutToStore (at_ g) = true -> logged s <> []) as Hlogged.
  { intros Hat Hnil. pose proof (Forall_lookup_1 _ _ _ _ (Hstore Hnil) Hi) as Hg.
    simpl in Hg. congruence. }
  assert (forall s' task,
            tidyShared b bts s' ->
            Forall (fun x => x.1.1 ∈ Describe b) (pendingOf task) ->
            (logged s' = [] -> logged s = [] /\ aboutToStore task = false) ->
            tidy b bts (s', <[i := mkGoroutine (bucket g) task]> gs)) as Hkeep.
  { intros s' task Hs' Htask Hq. split; [done|]. split; simpl.
    - apply Forall_insert; [done|]. by split.
    - intros Hnil. destruct (Hq Hnil) as [Hnil0 Hok]. by apply Forall_insert; [apply Hstore|]. }
  assert (forall en, logged s ++ [en] = [] -> logged s = [] /\ False) as Hsnoc.
  { intros en Hnil. by destruct (logged s). }
  pose proof Hs as (Hch & Hlog & Hlast).
  destruct (at_ g) as [| | | | |e pending|e pending|[|x pending]|] eqn:Hat;
    simpl in Hpending; try (injection Hstep as <-).
  - rewrite lookup_ownReply. apply Hkeep.
    + done.
    + by constructor.
    + intros Hnil. by split.
  - apply Hkeep.
    + done.
    + unfold afterCheck. destruct (err s); by constructor.
    + intros Hnil. split; [done|]. unfold afterCheck. by destruct (err s).
  - apply Hkeep.
    + by apply tidyShared_logLookup.
    + by constructor.
    + intros Hnil. simpl in Hnil. by destruct (Hsnoc _ Hnil).
  - apply Hkeep.
    + split; [done|]. split; [done|]. simpl. intros Hnil. by destruct (Hlogged eq_refl).
    + by constructor.
    + intros Hnil. simpl in Hnil. by destruct (Hlogged eq_refl).
  - apply Hkeep.
    + done.
    + pose proof (unmarshal_described b (bucket g) s) as Hall. unfold afterDecode.
      by destruct (unmarshal b (bucket g) s) as [pending [e|]].
    + intros Hnil. split; [done|]. unfold afterDecode.
      by destruct (unmarshal b (bucket g) s) as [pending [e|]].
  - apply Hkeep.
    + by apply tidyShared_logDecode.
    + done.
    + intros Hnil. simpl in Hnil. by destruct (Hsnoc _ Hnil).
  - apply Hkeep.
    + split; [done|]. split; [done|]. simpl. intros Hnil. by destruct (Hlogged eq_refl).
    + done.
    + intros Hnil. simpl in Hnil. by destruct (Hlogged eq_refl).
  - apply Hkeep.
    + done.
    + by constructor.
    + intros Hnil. by split.
  - apply Forall_cons in Hpending as [Hx Hrest]. apply Hkeep.
    + by apply tidyShared_send.
    + done.
    + intros Hnil. rewrite logged_send in Hnil. by split.
  - done.
Qed.

Lemma run_tidy b bts schedule st : tidy b bts st -> tidy b bts (run b schedule st).
Proof.
  revert st. induction schedule as [|i rest IH]; intros st Htidy; [done|].
  simpl. destruct (step b i st) as [st'|] eqn:Hstep; [|by apply IH].
  apply IH. by eapply step_tidy.
Qed.

Lemma spawn_tidy b bts out :
  tidy b bts (mkShared out None None [] [] None, spawn bts).
Proof.
  split; [by repeat split|]. simpl. split.
  - unfold spawn. apply Forall_fmap, Forall_forall. intros bt Hbt. by split.
  - intros _. unfold spawn. by apply Forall_fmap, Forall_forall.
Qed.

Lemma collect_tidy b schedule :
  enumerationError b = None -> tidyShared b (enumerated b) (collect b schedule).2.
Proof.
  unfold enumerationError, collect, enumerated.
  destruct (listBucketStats _ _) as [out e0]. simpl. destruct e0 as [e0|]; [done|].
  destruct (Unmarshal decodeBuckets [] out) as [buckets e1]. simpl. intros ->. simpl.
  apply (drain_invariant b (tidy b buckets) (tidyShared b buckets)).
  - intros rest. rewrite <- run_app. apply run_tidy, spawn_tidy.
  - by intros s gs (Hs & _).
Qed.

(** X10. Whatever the schedule of the goroutines, every metric that
    [Collect] sends is a gauge of one of the four descriptors that [Describe]
    sends. *)
Theorem Collect_sends_described_gauges b schedule (m : prometheus.Metric) :
  m ∈ (Collect b schedule).1 ->
  prometheus.desc m ∈ Describe b /\ prometheus.valueType m = prometheus.GaugeValue.
Proof.
  assert ((Collect b schedule).1 = ch (collect b schedule).2) as ->.
  { unfold Collect. destruct (collect b schedule) as [[e|] s]; done. }
  destruct (enumerationError b) as [e|] eqn:Henum.
  - rewrite (collect_enumeration_failed b schedule e Henum). simpl.
    intros Hm. by apply elem_of_nil in Hm.
  - destruct (collect_tidy b schedule Henum) as (Hch & _).
    intros Hm. by apply (proj1 (Forall_forall _ _) Hch).
Qed.


(** X12. When the enumeration of the buckets fails, in the command or in
    the decoding of its output, then, whatever the schedule, [collect] returns
    that error and [Collect] sends no metric; the log holds the debug entry,
    the entry of line 64 with the configuration and the user when it is the
    command that failed and nothing when it is the decoding, and the final
    error entry with the same error. *)
Theorem Collect_enumeration_failure b schedule e :
  enumerationError b = Some e ->
  (collect b schedule).1 = Some e
  /\ (Collect b schedule).1 = []
  /\ (Collect b schedule).2
     = collecting
       :: match (listBucketStats (BucketUsageCollector.config b)
                   (BucketUsageCollector.user b)).2 with
          | Some _ => [errorListing b e]
          | None => []
          end
       ++ [errorCollecting e].
Proof.
  intros Henum. unfold Collect. by rewrite (collect_enumeration_failed b schedule e Henum).
Qed.

(** ** One bucket *)

(** A step of the only goroutine does not change where it will end. *)
Lemma step_alone b i s g st' :
  step b i (s, [g]) = Some st' ->
  exists g', st' = (st'.1, [g']) /\ finish b g' st'.1 = finish b g s.
Proof.
  unfold step. destruct (panicked s) eqn:Hp; [done|].
  destruct i as [|i]; [|done]. simpl. unfold finish at 2. rewrite Hp.
  destruct (at_ g) as [| | | | |e pending|e pending|[|x pending]|] eqn:Hat;
    try (intros [= <-]; eexists; split; [done|]; unfold finish; simpl).
  - by rewrite panicked_lookup, Hp.
  - rewrite Hp, (check_steps (bucket g) s). unfold afterCheck. by destruct (err s).
  - by rewrite Hp.
  - by rewrite Hp.
  - rewrite Hp, (decode_steps b (bucket g) s). unfold afterDecode.
    by destruct (unmarshal b (bucket g) s) as [pending [e|]].
  - by rewrite Hp.
  - by rewrite Hp.
  - by rewrite Hp.
  - by destruct (panicked (send x s)).
  - done.
Qed.

Lemma run_alone b schedule s g :
  drain b (run b schedule (s, [g])) = finish b g s.
Proof.
  revert s g. induction schedule as [|i rest IH]; intros s g; [done|].
  rewrite run_cons. destruct (step b i (s, [g])) as [st'|] eqn:Hstep; [|apply IH].
  apply step_alone in Hstep as (g' & -> & Hsame). by rewrite IH.
Qed.

Lemma run_none b schedule s : run b schedule (s, []) = (s, []).
Proof.
  induction schedule as [|i rest IH]; [done|].
  rewrite run_cons. unfold step. destruct (panicked s); by rewrite ?lookup_nil.
Qed.

(** X13. With at most one bucket there is one goroutine at most, and the
    schedule does not matter: [collect] and [Collect] give what they give when
    the goroutine runs without interruption. *)
Theorem collect_one_bucket_any_schedule b schedule :
  (length (enumerated b) <= 1)%nat ->
  collect b schedule = collect b [] /\ Collect b schedule = Collect b [].
Proof.
  intros Hlen.
  assert (collect b schedule = collect b []) as Heq.
  { unfold collect, enumerated in *.
    destruct (listBucketStats _ _) as [out e0]. simpl in *. destruct e0 as [e0|]; [done|].
    destruct (Unmarshal decodeBuckets [] out) as [buckets e1]. simpl in *.
    destruct e1 as [e1|]; [done|].
    destruct buckets as [|bt [|bt' buckets]]; simpl in Hlen; [| |lia].
    - simpl. by rewrite run_none.
    - simpl spawn. by rewrite !run_alone. }
  split; [done|]. unfold Collect. by rewrite Heq.
Qed.

(** ** One goroutine after the other *)

Lemma latestErr_send x s : latestErr (send x s) = latestErr s.
Proof.
  destruct x as [[d v] labels]. unfold send.
  by destruct (prometheus.MustNewConstMetric d prometheus.GaugeValue v labels).
Qed.

Lemma latestErr_sendAll pending s : latestErr (sendAll pending s) = latestErr s.
Proof.
  revert s. induction pending as [|x pending IH]; intros s; [done|].
  simpl. destruct (panicked (send x s)); [|rewrite IH]; apply latestErr_send.
Qed.

(** The package's [showBucketUsage] returns no output with an error. *)
Lemma showBucketUsage_nil config user bucket uid :
  (showBucketUsage config user bucket uid).2 <> None ->
  (showBucketUsage config user bucket uid).1 = [].
Proof. unfold showBucketUsage. by destruct (Output _) as [out [e|]]. Qed.

Lemma ownUsage_of_failed_command (exporter : Exporter) bt :
  let b := NewBucketUsageCollector exporter in
  (ownReply b bt).2 <> None ->
  (ownUsage b bt).2 = Some (SyntaxError "unexpected end of JSON input").
Proof.
  intros b Hfail. unfold ownUsage. unfold ownReply in *. simpl in *.
  by rewrite (showBucketUsage_nil _ _ _ _ Hfail).
Qed.

Lemma finish_decodingError b bts bt s :
  ((ownReply b bt).2 <> None -> (ownReply b bt).1 = []) ->
  bt ∈ bts ->
  decodingError b bts (latestErr s) ->
  decodingError b bts (latestErr (finish b (mkGoroutine bt AtLookup) s)).
Proof.
  intros Hnil Hbt Hs. unfold finish. destruct (panicked s); [done|]. simpl.
  assert (forall e, (ownUsage b bt).2 = Some e -> decodingError b bts (Some e)) as Hown.
  { intros e He. right. by exists bt. }
  unfold decode, unmarshal, check, storeLookup, logLookup, lookup.
  unfold ownUsage, ownReply in *.
  destruct (BucketUsageCollector.showBucketUsage b _ _ _ _) as [out e0]. simpl in *.
  destruct e0 as [e0|]; simpl.
  - assert (out = []) as -> by by apply Hnil.
    simpl in *. rewrite ?latestErr_sendAll. simpl. by apply Hown.
  - destruct (Unmarshal decodeUsage (mkBucketUsage []) out) as [usage e1]. simpl in *.
    destruct e1 as [e1|]; rewrite latestErr_sendAll; simpl; [by apply Hown|done].
Qed.

Lemma drain_decodingError b bts todo s :
  (forall bt, (ownReply b bt).2 <> None -> (ownReply b bt).1 = []) ->
  Forall (fun bt => bt ∈ bts) todo ->
  decodingError b bts (latestErr s) ->
  decodingError b bts (latestErr (drain b (s, spawn todo))).
Proof.
  intros Hnil Hsub. unfold drain. simpl. revert s.
  induction Hsub as [|bt todo Hbt Hsub IH]; intros s Hs; [done|].
  simpl. apply IH. apply finish_decodingError; [apply Hnil|done|done].
Qed.

Lemma ownReply_nil (exporter : Exporter) bt :
  (ownReply (NewBucketUsageCollector exporter) bt).2 <> None ->
  (ownReply (NewBucketUsageCollector exporter) bt).1 = [].
Proof. apply showBucketUsage_nil. Qed.

(** X14. When the goroutines run one after the other, the error that
    [collect] returns is what the decoding of some bucket's reply gave, never
    what the command gave: for a bucket whose command fails, line 57 of the
    wrappers returns no output, so that the decoding of line 87 fails as well
    and overwrites [latestErr] with the syntax error of an empty input. *)
Theorem collect_in_turn_returns_decoding_error (exporter : Exporter) (e : error) :
  let b := NewBucketUsageCollector exporter in
  enumerationError b = None ->
  (collect b []).1 = Some e ->
  (exists bt, bt ∈ enumerated b /\ (ownUsage b bt).2 = Some e)
  /\ (forall bt,
        bt ∈ enumerated b ->
        (ownReply b bt).2 <> None ->
        (ownUsage b bt).2 = Some (SyntaxError "unexpected end of JSON input")).
Proof.
  intros b Henum Hret. split.
  - assert (decodingError b (enumerated b) (collect b []).1) as Hdec.
    { clear Hret. unfold enumerationError, collect, enumerated in *.
      destruct (listBucketStats _ _) as [out e0]. simpl in *. destruct e0 as [e0|]; [done|].
      destruct (Unmarshal decodeBuckets [] out) as [buckets e1]. simpl in *. subst e1.
      simpl. apply drain_decodingError; [apply ownReply_nil|by apply Forall_forall|by left]. }
    rewrite Hret in Hdec. by destruct Hdec as [?|Hdec].
  - intros bt _. apply ownUsage_of_failed_command.
Qed.

(** X15. When the goroutines run one after the other and the enumeration
    succeeds, [collect] sends, bucket by bucket in the order of the
    enumeration, the samples of what each bucket's own reply decodes to (four
    for each category: bytes sent, bytes received, operations, successful
    operations), and it returns an error exactly when the lookup of some
    bucket fails. *)
Theorem collect_in_turn_sends_each_bucket_in_order (exporter : Exporter) :
  let b := NewBucketUsageCollector exporter in
  enumerationError b = None ->
  ch (collect b []).2
  = map metricOf (flat_map (fun bt => samplesOf b bt (ownUsage b bt).1) (enumerated b))
  /\ ((collect b []).1 <> None <-> Exists (fun bt => lookupFails b bt = true) (enumerated b)).
Proof.
  intros b Henum. unfold enumerationError in Henum.
  destruct ((listBucketStats (BucketUsageCollector.config b) (BucketUsageCollector.user b)).2)
    as [e0|] eqn:Hlist; [done|].
  by apply collect_in_turn; [apply NewBucketUsageCollector_declares| |].
Qed.

(** ** A lookup that lands before the decoding of another *)

Lemma finish_checked b bts bt s :
  declaresBucketLabel b ->
  bt ∈ bts ->
  panicked s = None ->
  let s' := finish b (mkGoroutine bt AtCheck) s in
  ch s' = ch s ++ map metricOf
                    (samplesOf b bt (Unmarshal decodeUsage (mkBucketUsage []) (buf s)).1)
  /\ panicked s' = None
  /\ buf s' = buf s.
Proof.
  intros Hb Hbt Hp. unfold finish. rewrite Hp. simpl.
  unfold decode, unmarshal, check, storeLookup, logLookup.
  assert (forall usage, Forall (fun x => wellLabelled bts (metricOf x)) (samplesOf b bt usage))
    as Hall by (intros usage; by apply samplesOf_wellLabelled).
  destruct (err s) as [e0|]; simpl;
    destruct (Unmarshal decodeUsage (mkBucketUsage []) (buf s)) as [usage [e1|]]; simpl;
    by rewrite (sendAll_wellLabelled bts).
Qed.

(** X16. The reply of a lookup is kept in the variable [buf] that all
    goroutines share.  When the lookup of the second bucket (line 81) runs
    after the lookup of the first and before the first decodes (line 87), the
    first bucket's samples are computed from the second bucket's reply: they
    carry the first bucket's name and the second bucket's numbers.  This needs
    no failure of any lookup. *)
Theorem collect_late_lookup_replaces_reply b bt1 bt2 (rest : list bucket.t) :
  declaresBucketLabel b ->
  enumerationError b = None ->
  enumerated b = bt1 :: bt2 :: rest ->
  ch (collect b [0; 1]%nat).2
  = map metricOf
      (samplesOf b bt1 (ownUsage b bt2).1
       ++ samplesOf b bt2 (ownUsage b bt2).1
       ++ flat_map (fun bt => samplesOf b bt (ownUsage b bt).1) rest).
Proof.
  intros Hb Henum Hbuckets.
  unfold enumerationError, collect, enumerated in *.
  destruct (listBucketStats _ _) as [out e0]. simpl in Henum, Hbuckets.
  destruct e0 as [e0|]; [done|].
  destruct (Unmarshal decodeBuckets [] out) as [buckets e1]. simpl in Henum, Hbuckets.
  subst e1 buckets. cbn [snd].
  set (bts := bt1 :: bt2 :: rest).
  assert (bt1 ∈ bts) as H1 by apply list_elem_of_here.
  assert (bt2 ∈ bts) as H2 by apply list_elem_of_further, list_elem_of_here.
  assert (Forall (fun bt => bt ∈ bts) rest) as Hrest.
  { apply Forall_forall. intros bt Hbt. by do 2 apply list_elem_of_further. }
  assert (run b [0; 1]%nat (mkShared out None None [] [] None, spawn bts)
          = (mkShared (ownReply b bt2).1 (ownReply b bt2).2 None [] [] None,
             mkGoroutine bt1 AtCheck :: mkGoroutine bt2 AtCheck :: spawn rest)) as ->.
  { unfold bts. simpl. unfold lookup, ownReply.
    destruct (BucketUsageCollector.showBucketUsage b _ _ (bucket.Bucket bt1) _). simpl.
    by destruct (BucketUsageCollector.showBucketUsage b _ _ (bucket.Bucket bt2) _). }
  unfold drain. cbn [fst snd foldl].
  destruct (finish_checked b bts bt1
              (mkShared (ownReply b bt2).1 (ownReply b bt2).2 None [] [] None) Hb H1 eq_refl)
    as (Hch1 & Hp1 & Hbuf1).
  set (s1 := finish b (mkGoroutine bt1 AtCheck) _) in *.
  destruct (finish_checked b bts bt2 s1 Hb H2 Hp1) as (Hch2 & Hp2 & _).
  set (s2 := finish b (mkGoroutine bt2 AtCheck) s1) in *.
  destruct (drain_in_turn b bts rest s2 Hb Hrest Hp2) as (Hch3 & _).
  unfold drain in Hch3. simpl in Hch3. rewrite Hch3, Hch2, Hch1, Hbuf1. simpl.
  by rewrite !map_app, <- app_assoc.
Qed.

(** ** Where the samples and the errors come from, under any schedule *)

(** X17. Whatever the schedule of the goroutines, every metric that
    [Collect] sends is a sample of an enumerated bucket computed from the
    reply to the usage lookup of an enumerated bucket, the same or another:
    the shared [buf] can put one bucket's numbers under another bucket's
    name, and nothing else. *)
Theorem Collect_sends_samples_of_enumerated_replies b schedule (m : prometheus.Metric) :
  m ∈ (Collect b schedule).1 ->
  exists bt bt' x,
    bt ∈ enumerated b
    /\ bt' ∈ enumerated b
    /\ x ∈ samplesOf b bt (ownUsage b bt').1
    /\ m = metricOf x.
Proof.
  assert ((Collect b schedule).1 = ch (collect b schedule).2) as ->.
  { unfold Collect. destruct (collect b schedule) as [[e|] s]; done. }
  destruct (enumerationError b) as [e|] eqn:Henum.
  - rewrite (collect_enumeration_failed b schedule e Henum). simpl.
    intros Hm. by apply elem_of_nil in Hm.
  - destruct (collect_traced b schedule Henum) as (_ & (Hch & _) & _).
    intros Hm. destruct (proj1 (Forall_forall _ _) Hch m Hm) as (x & (bt & bt' & ? & ? & ?) & ->).
    by exists bt, bt', x.
Qed.

(** X18. When the enumeration succeeds then, whatever the schedule of the
    goroutines, an error that [collect] returns is the error of the lookup of
    some enumerated bucket, of its command or of the decoding of its reply;
    so when no lookup fails, [collect] returns nil and logs nothing under
    every schedule. *)
Theorem collect_returns_a_lookup_error b schedule :
  enumerationError b = None ->
  (forall e,
      (collect b schedule).1 = Some e ->
      exists bt,
        bt ∈ enumerated b
        /\ ((ownReply b bt).2 = Some e \/ (ownUsage b bt).2 = Some e))
  /\ (Forall (fun bt => lookupFails b bt = false) (enumerated b) ->
      (collect b schedule).1 = None /\ logged (collect b schedule).2 = []).
Proof.
  intros Henum.
  destruct (collect_traced b schedule Henum) as (Hret & (_ & _ & Hlatest) & Hcalm).
  rewrite <- Hret in Hlatest. split.
  - intros e He. rewrite He in Hlatest.
    destruct Hlatest as [?|(bt & Hbt & Hor)]; [done|]. by exists bt.
  - intros Hquiet. split; [|by apply Hcalm].
    by apply (lookupError_none b (enumerated b)).
Qed.

(** ** The descriptors *)

Lemma append_inj_l (p s1 s2 : string) : p +:+ s1 = p +:+ s2 -> s1 = s2.
Proof. induction p as [|a p IH]; simpl; [done|]. intros [= Heq]. by apply IH. Qed.

(** X19. Whatever the namespace, the four descriptors that [Describe]
    sends for a collector made by [NewBucketUsageCollector] have four
    different names; each declares the labels bucket, user and category and
    carries the cluster of the exporter as its only constant label. *)
Theorem Describe_sends_four_distinct_descriptors (exporter : Exporter) :
  let b := NewBucketUsageCollector exporter in
  length (Describe b) = 4%nat
  /\ NoDup (map prometheus.fqName (Describe b))
  /\ Forall (fun d => prometheus.variableLabels d = ["bucket"; "user"; "category"]
                      /\ prometheus.constLabels d = {[ "cluster" := Cluster exporter ]})
       (Describe b).
Proof.
  intros b. split; [done|]. split.
  - simpl.
    repeat (apply NoDup_cons; split;
            [rewrite ?elem_of_cons, elem_of_nil;
             intros Hin; repeat destruct Hin as [Hin|Hin]; try done;
             apply append_inj_l in Hin; discriminate|]).
    apply NoDup_nil_2.
  - unfold Describe. simpl. repeat (apply Forall_cons; split; [by rewrite insert_empty|]).
    by apply Forall_nil.
Qed.

End Fanout.

(** The first sample of bucket [A], under the schedule in which [A]
    overtakes [B]. *)
Lemma Collect_sends_described_gauges_witness :
  prometheus.desc Fake.firstSample ∈ Describe Fake.collector
  /\ prometheus.valueType Fake.firstSample = prometheus.GaugeValue.
Proof.
  apply (Collect_sends_described_gauges Fake.collector Fake.overtaken Fake.firstSample).
  apply list_elem_of_In. vm_compute. do 4 right. left. reflexivity.
Defined.

(** Between the test of line 82 and the entry of line 83 the shared [err]
    can become nil: the entry is logged without an error, and [collect]
    returns nil although an entry was logged. *)
Lemma interrupted_scenario :
  logged (collect Fake.collector Fake.interrupted).2
  = [mkEntry ErrorLevel "error getting bucket'usage" None [("bucket", FieldString "B")]]
  /\ (collect Fake.collector Fake.interrupted).1 = None.
Proof. by vm_compute. Qed.


(** The command fails; the command prints nothing. *)
Lemma Collect_enumeration_failure_witness :
  ((@collect Fake.down (Fake.collectorOn Fake.down) Fake.overtaken).1 = Some (ExitError 1)
   /\ (@Collect Fake.down (Fake.collectorOn Fake.down) Fake.overtaken).1 = []
   /\ (@Collect Fake.down (Fake.collectorOn Fake.down) Fake.overtaken).2
      = [collecting;
         errorListing (Fake.collectorOn Fake.down) (ExitError 1);
         errorCollecting (ExitError 1)])
  /\ ((@collect Fake.silent (Fake.collectorOn Fake.silent) Fake.overtaken).1
      = Some (SyntaxError "unexpected end of JSON input")
      /\ (@Collect Fake.silent (Fake.collectorOn Fake.silent) Fake.overtaken).1 = []
      /\ (@Collect Fake.silent (Fake.collectorOn Fake.silent) Fake.overtaken).2
         = [collecting; errorCollecting (SyntaxError "unexpected end of JSON input")]).
Proof.
  split.
  - exact (@Collect_enumeration_failure Fake.down (Fake.collectorOn Fake.down) Fake.overtaken
             (ExitError 1) eq_refl).
  - exact (@Collect_enumeration_failure Fake.silent (Fake.collectorOn Fake.silent)
             Fake.overtaken (SyntaxError "unexpected end of JSON input") eq_refl).
Defined.

(** One bucket: a schedule that also picks goroutines that do not exist. *)
Lemma collect_one_bucket_any_schedule_witness :
  @collect Fake.lonely (Fake.collectorOn Fake.lonely) [0; 2; 0; 1; 0]%nat
  = @collect Fake.lonely (Fake.collectorOn Fake.lonely) []
  /\ @Collect Fake.lonely (Fake.collectorOn Fake.lonely) [0; 2; 0; 1; 0]%nat
     = @Collect Fake.lonely (Fake.collectorOn Fake.lonely) [].
Proof.
  apply (@collect_one_bucket_any_schedule Fake.lonely (Fake.collectorOn Fake.lonely)
           [0; 2; 0; 1; 0]%nat).
  vm_compute. lia.
Defined.

(** The scenario of three buckets: [B]'s command fails with an exit
    status, and what [collect] returns is the syntax error. *)
Lemma collect_in_turn_returns_decoding_error_witness :
  (exists bt,
      bt ∈ enumerated Fake.collector
      /\ (ownUsage Fake.collector bt).2 = Some (SyntaxError "unexpected end of JSON input"))
  /\ (forall bt,
        bt ∈ enumerated Fake.collector ->
        (ownReply Fake.collector bt).2 <> None ->
        (ownUsage Fake.collector bt).2 = Some (SyntaxError "unexpected end of JSON input")).
Proof.
  apply (collect_in_turn_returns_decoding_error Fake.admin
           (SyntaxError "unexpected end of JSON input")).
  - vm_compute. reflexivity.
  - vm_compute. reflexivity.
Defined.

(** Two buckets in good order: [A]'s samples carry the category and the
    numbers of [C]. *)
Lemma collect_late_lookup_replaces_reply_witness :
  Fake.labelsSent (@collect Fake.busy (Fake.collectorOn Fake.busy) [0; 1]%nat)
  = replicate 4 ["A"; "u"; "get_obj"] ++ replicate 4 ["C"; "u"; "get_obj"]
  /\ Fake.valuesSent (@collect Fake.busy (Fake.collectorOn Fake.busy) [0; 1]%nat)
     = [7000; 3000; 70; 70; 7000; 3000; 70; 70].
Proof.
  assert (declaresBucketLabel (Fake.collectorOn Fake.busy)) as Hb
    by (repeat split; reflexivity).
  assert (@enumerationError Fake.busy (Fake.collectorOn Fake.busy) = None) as Henum
    by (vm_compute; reflexivity).
  assert (@enumerated Fake.busy (Fake.collectorOn Fake.busy) = [Fake.A; Fake.C]) as Hbuckets
    by (vm_compute; reflexivity).
  pose proof (@collect_late_lookup_replaces_reply Fake.busy (Fake.collectorOn Fake.busy)
                Fake.A Fake.C [] Hb Henum Hbuckets) as Hch.
  unfold Fake.labelsSent, Fake.valuesSent. rewrite Hch.
  split; vm_compute; reflexivity.
Defined.

(** Under the schedule in which [A] overtakes [B]: a sample under the
    name of [B], whose own lookup failed, with the numbers of [A]. *)
Lemma Collect_sends_samples_of_enumerated_replies_witness :
  exists bt bt' x,
    bt ∈ enumerated Fake.collector
    /\ bt' ∈ enumerated Fake.collector
    /\ x ∈ samplesOf Fake.collector bt (ownUsage Fake.collector bt').1
    /\ prometheus.mkMetric (BucketUsageCollector.BytesSent Fake.collector)
         prometheus.GaugeValue 100 ["B"; "u"; "put_obj"]
       = metricOf x.
Proof.
  apply (Collect_sends_samples_of_enumerated_replies Fake.collector Fake.overtaken).
  apply list_elem_of_In. vm_compute. left. reflexivity.
Defined.

(** Two buckets in good order, the second lookup landing before the first
    decoding: nothing is reported, although [A]'s samples are those of [C]. *)
Lemma collect_returns_a_lookup_error_witness :
  (@collect Fake.busy (Fake.collectorOn Fake.busy) [0; 1]%nat).1 = None
  /\ logged (@collect Fake.busy (Fake.collectorOn Fake.busy) [0; 1]%nat).2 = [].
Proof.
  assert (@enumerationError Fake.busy (Fake.collectorOn Fake.busy) = None) as Henum
    by (vm_compute; reflexivity).
  apply (proj2 (@collect_returns_a_lookup_error Fake.busy (Fake.collectorOn Fake.busy)
                  [0; 1]%nat Henum)).
  assert (@enumerated Fake.busy (Fake.collectorOn Fake.busy) = [Fake.A; Fake.C]) as ->
    by (vm_compute; reflexivity).
  repeat (apply Forall_cons; split; [vm_compute; reflexivity|]). by apply Forall_nil.
Defined.

Lemma collect_in_turn_sends_each_bucket_in_order_witness :
  ch (collect Fake.collector []).2
  = map metricOf
      (flat_map (fun bt => samplesOf Fake.collector bt (ownUsage Fake.collector bt).1)
         (enumerated Fake.collector))
  /\ ((collect Fake.collector []).1 <> None
      <-> Exists (fun bt => lookupFails Fake.collector bt = true) (enumerated Fake.collector)).
Proof.
  apply (collect_in_turn_sends_each_bucket_in_order Fake.admin).
  vm_compute. reflexivity.
Defined.

End CephMore.
